(** * Poppy Ergo Jr controllers: a shallow embedding of [controllers.py]

    The node exposes the motors of a Poppy Ergo Jr arm through three ROS
    services ([reach], [execute], [set_compliant]).  Handlers are embedded
    as computations over the list of motors owned by the hardware adapter;
    every call that leaves the process (logging, the lock, [rospy.sleep],
    [rospy.is_shutdown], the SDK's [goto_position]) and every write to a
    motor attribute is recorded in a chronological trace of events.

    Python floats are idealised as exact rationals ([Q]): the rounding of
    the float operations is not modelled.  Calls that leave the repository
    (the SDK, the logger, [rospy.Rate]) may raise, and the handlers catch
    only what the code catches. *)

From Stdlib Require Import QArith Lqa.
From stdpp Require Import gmap strings list.

Local Open Scope string_scope.
Local Open Scope list_scope.

(** ** Messages (genpy, sensor_msgs, trajectory_msgs, poppy_msgs) *)

Module Duration.
Record t := mk { secs : Z; nsecs : Z }.

(** [genpy.Duration.to_sec]: [float(secs) + float(nsecs) / 1e9], without the
    rounding of the float operations. *)
Definition to_sec (d : t) : Q :=
  (inject_Z (secs d) + inject_Z (nsecs d) / inject_Z 1000000000)%Q.
End Duration.

Module JointState.
Record t := mk {
  name : list string;
  position : list Q;
  velocity : list Q;
  effort : list Q
}.
End JointState.

Module JointTrajectoryPoint.
Record t := mk { positions : list Q; time_from_start : Duration.t }.
End JointTrajectoryPoint.

Module JointTrajectory.
Record t := mk { joint_names : list string; points : list JointTrajectoryPoint.t }.
End JointTrajectory.

Module ReachTarget.
Record t := mk { target : JointState.t; duration : Duration.t }.
End ReachTarget.

Module ExecuteTrajectory.
Record t := mk { trajectory : JointTrajectory.t }.
End ExecuteTrajectory.

Module SetCompliantRequest.
Record t := mk { compliant : bool }.
End SetCompliantRequest.

Inductive ReachTargetResponse := mkReachTargetResponse.
Inductive ExecuteTrajectoryResponse := mkExecuteTrajectoryResponse.
Inductive SetCompliantResponse := mkSetCompliantResponse.

(** ** The hardware adapter's motors *)

Module Motor.
Record t := mk {
  name : string;
  present_position : Q;
  present_speed : Q;
  present_load : Q;
  goal_position : Q;
  goal_speed : Q;
  moving_speed : Q;
  compliant : bool
}.

Definition set_goal_position (v : Q) (m : t) : t :=
  mk (name m) (present_position m) (present_speed m) (present_load m)
     v (goal_speed m) (moving_speed m) (compliant m).

Definition set_moving_speed (v : Q) (m : t) : t :=
  mk (name m) (present_position m) (present_speed m) (present_load m)
     (goal_position m) (goal_speed m) v (compliant m).

Definition set_compliant (b : bool) (m : t) : t :=
  mk (name m) (present_position m) (present_speed m) (present_load m)
     (goal_position m) (goal_speed m) (moving_speed m) b.
End Motor.

(** ** Python values and control *)

(** [dict(pairs)]: later bindings of a key replace earlier ones. *)
Definition dict (pairs : list (string * Q)) : gmap string Q :=
  foldl (fun d kv => <[kv.1 := kv.2]> d) ∅ pairs.

Inductive exn :=
| KeyError (key : string)
| ValueError
| IndexError
| IOError
| AttributeError
| TypeError
| ZeroDivisionError
| ROSInterruptException
| Exception
| SystemExit (code : Z).

Inductive result (A : Type) :=
| Return (a : A)
| Raise (e : exn).
Arguments Return {A} a.
Arguments Raise {A} e.

(** [d[key]] *)
Definition getitem (d : gmap string Q) (key : string) : result Q :=
  match d !! key with
  | Some v => Return v
  | None => Raise (KeyError key)
  end.

(** [l.index(x)] *)
Fixpoint index (l : list string) (x : string) : result nat :=
  match l with
  | [] => Raise ValueError
  | y :: l' =>
      if decide (y = x) then Return 0
      else match index l' x with
           | Return i => Return (S i)
           | Raise e => Raise e
           end
  end.

(** The character [%] (code 37). *)
Definition percent_sign : Ascii.ascii := Ascii.ascii_of_nat 37.

(** [fmt % args] for a tuple of integers, as far as it raises: each
    conversion specifier (a [%] and the character after it; [%%] is a
    literal percent sign) takes one argument, a [%] that ends the string is
    an incomplete format, and no argument may be left over. *)
Fixpoint percent_format (fmt : string) (args : list Z) : result unit :=
  match fmt with
  | EmptyString =>
      match args with
      | [] => Return tt
      | _ :: _ => Raise TypeError
      end
  | String c rest =>
      if Ascii.eqb c percent_sign then
        match rest with
        | EmptyString => Raise ValueError
        | String c' rest' =>
            if Ascii.eqb c' percent_sign then percent_format rest' args
            else
              match args with
              | [] => Raise TypeError
              | _ :: args' => percent_format rest' args'
              end
        end
      else percent_format rest args
  end.

(** [x < 0.] and [x <= 0.] on floats. *)
Definition ltb0 (x : Q) : bool := negb (Qle_bool 0 x).
Definition leb0 (x : Q) : bool := Qle_bool x 0.

(** ** Observable events *)

Inductive level := INFO | WARN | ERROR.

Inductive message :=
| Connecting
| MissingDescription
| FailedToInit
| ControllersUp
| Teleporting (target : gmap string Q)
| Reaching (target : gmap string Q) (duration : Q)
| ExecutingTrajectory (n : nat)
| SkippingPoint (point_number n : nat)
| TrajectoryAborted
| TrajectoryEnded
| NowCompliant (compliant : bool).

(** What the node publishes: a [PoseStamped] (frame and position) or a
    [JointState]; time stamps are left out. *)
Inductive published :=
| PoseStamped (frame_id : string) (x y z : Q)
| JointStateMsg (js : JointState.t).

Inductive event :=
| Log (l : level) (m : message)
| Acquire
| Release
| IsShutdown (answer : bool)
| Sleep (d : Q) (interrupted : bool)
| GotoPosition (position_for_motors : gmap string Q) (duration : Q)
| SetGoalPosition (index : nat) (v : Q)
| SetMovingSpeed (index : nat) (v : Q)
| SetCompliant (index : nat) (b : bool)
| Publish (topic : string) (msg : published)
| RateSleep.

(** Events that act on the hardware adapter. *)
Definition touches_robot (e : event) : bool :=
  match e with
  | GotoPosition _ _ | SetGoalPosition _ _ | SetMovingSpeed _ _ | SetCompliant _ _ => true
  | _ => false
  end.

Definition is_goto (e : event) : bool :=
  match e with GotoPosition _ _ => true | _ => false end.

(** ** Computations over the motors ([self.ergo.motors]) *)

Record outcome (A : Type) := mkOutcome {
  value : result A;
  motors : list Motor.t;
  trace : list event
}.
Arguments mkOutcome {A} value motors trace.
Arguments value {A} o.
Arguments motors {A} o.
Arguments trace {A} o.

Definition M (A : Type) : Type := list Motor.t -> outcome A.

Definition ret {A} (a : A) : M A := fun ms => mkOutcome (Return a) ms [].

Definition raise {A} (e : exn) : M A := fun ms => mkOutcome (Raise e) ms [].

Definition bind {A B} (c : M A) (k : A -> M B) : M B :=
  fun ms =>
    let o := c ms in
    match value o with
    | Return a =>
        let o' := k a (motors o) in
        mkOutcome (value o') (motors o') (trace o ++ trace o')
    | Raise e => mkOutcome (Raise e) (motors o) (trace o)
    end.

Notation "x <- c ;; k" := (bind c (fun x => k))
  (at level 100, c at next level, right associativity).
Notation "c ;;; k" := (bind c (fun _ => k))
  (at level 100, right associativity).

Definition emit (e : event) : M unit := fun ms => mkOutcome (Return tt) ms [e].

Definition lift {A} (r : result A) : M A := fun ms => mkOutcome r ms [].

(** [rospy.loginfo(text)], [rospy.logwarn(text)], [rospy.logerr(text)] with
    the text alone: there is nothing to format, the line is logged. *)
Definition loginfo (m : message) : M unit := emit (Log INFO m).
Definition logwarn (m : message) : M unit := emit (Log WARN m).
Definition logerr (m : message) : M unit := emit (Log ERROR m).

(** [rospy.logwarn(fmt, *args)] with arguments after the message: the
    logging handlers build the text as [fmt % args] before they write it, so
    a message that does not take the arguments raises instead of being
    logged.  [m] is the line logged when the formatting goes through. *)
Definition logwarn_args (fmt : string) (args : list Z) (m : message) : M unit :=
  lift (percent_format fmt args) ;;;
  emit (Log WARN m).

(** [with self.robot_lock: body]: the lock is released on every exit. *)
Definition with_lock {A} (body : M A) : M A :=
  fun ms =>
    let o := body ms in
    mkOutcome (value o) (motors o) (Acquire :: trace o ++ [Release]).

(** [try: body / except ROSInterruptException: handler / else: orelse] *)
Definition try_except_interrupt {A} (body : M A) (handler orelse : M unit) : M unit :=
  fun ms =>
    let o := body ms in
    match value o with
    | Return _ =>
        let o' := orelse (motors o) in
        mkOutcome (value o') (motors o') (trace o ++ trace o')
    | Raise ROSInterruptException =>
        let o' := handler (motors o) in
        mkOutcome (value o') (motors o') (trace o ++ trace o')
    | Raise e => mkOutcome (Raise e) (motors o) (trace o)
    end.

(** [for i, x in enumerate(l): body], threading the loop's variable [s]; the
    body says whether the loop goes on ([Next], also for [continue]) or is
    left ([Break]). *)
Inductive control (St : Type) :=
| Next (s : St)
| Break (s : St).
Arguments Next {St} s.
Arguments Break {St} s.

Fixpoint for_enumerate {A St} (body : nat -> A -> St -> M (control St))
    (i : nat) (l : list A) (s : St) : M (control St) :=
  match l with
  | [] => ret (Next s)
  | x :: l' =>
      c <- body i x s ;;
      match c with
      | Next s' => for_enumerate body (S i) l' s'
      | Break s' => ret (Break s')
      end
  end.

(** [self.ergo.motors[index].<attr> = v]: the update [f] of one motor. *)
Definition set_motor (i : nat) (f : Motor.t -> Motor.t) (e : event) : M unit :=
  fun ms =>
    match ms !! i with
    | Some m => mkOutcome (Return tt) (<[i := f m]> ms) [e]
    | None => mkOutcome (Raise IndexError) ms []
    end.

(** [for m in self.ergo.motors: m.<attr> = v] *)
Definition for_each_motor (f : Motor.t -> Motor.t) (e : nat -> event) : M unit :=
  fun ms => mkOutcome (Return tt) (f <$> ms) (imap (fun i _ => e i) ms).

(** ** The controller *)

(** The attributes of [ErgoJrControllers] the handlers read. [params] is the
    dictionary loaded from [config/ergo_jr.json]. *)
Record ErgoJrControllers := mkErgoJrControllers {
  params : gmap string Q;
  robot_name : string
}.

(** What the ROS runtime answers during one run of [execute]:
    [shutdown_at i] is the value of [rospy.is_shutdown()] at the start of
    iteration [i] of the loop, and [interrupted_at i] tells whether the
    [rospy.sleep] of iteration [i] raises [ROSInterruptException]. *)
Record runtime := mkRuntime {
  shutdown_at : nat -> bool;
  interrupted_at : nat -> bool
}.

(** The literal list of [_cb_reach]. *)
Definition joint_whitelist : list string := ["m1"; "m2"; "m3"; "m4"; "m5"; "m6"].

Section Controllers.

(** The SDK's [goto_position(position_for_motors, duration)]: whether the
    call returns or raises (it does on a name that is no motor of the robot),
    and the motors' attributes it leaves. *)
Variable goto_position : gmap string Q -> Q -> list Motor.t -> result unit * list Motor.t.

Definition ergo_goto_position (target : gmap string Q) (duration : Q) : M unit :=
  fun ms => mkOutcome (goto_position target duration ms).1
                      (goto_position target duration ms).2
                      [GotoPosition target duration].

Definition is_shutdown (rt : runtime) (i : nat) : M bool :=
  fun ms => mkOutcome (Return (shutdown_at rt i)) ms [IsShutdown (shutdown_at rt i)].

Definition sleep (rt : runtime) (i : nat) (d : Q) : M unit :=
  fun ms =>
    mkOutcome (if interrupted_at rt i then Raise ROSInterruptException else Return tt)
              ms [Sleep d (interrupted_at rt i)].

Definition reset_max_speed : M unit :=
  for_each_motor (Motor.set_moving_speed 100) (fun i => SetMovingSpeed i 100).

(** The SDK's forward kinematics, [self.ergo.chain.end_effector]. *)
Variable end_effector : list Motor.t -> Q * Q * Q.

Definition publish (topic : string) (msg : published) : M unit :=
  emit (Publish topic msg).

Definition publish_eef (eef_pose : Q * Q * Q) : M unit :=
  publish "end_effector_pose"
    (PoseStamped "ergo_jr_base" eef_pose.1.1 eef_pose.1.2 eef_pose.2).

Definition publish_js : M unit :=
  fun ms =>
    publish "joint_state"
      (JointStateMsg
         (JointState.mk (Motor.name <$> ms) (Motor.present_position <$> ms)
            (Motor.present_speed <$> ms) (Motor.present_load <$> ms))) ms.

Definition publish_goals : M unit :=
  fun ms =>
    publish "joint_goals"
      (JointStateMsg
         (JointState.mk (Motor.name <$> ms) (Motor.goal_position <$> ms)
            (Motor.goal_speed <$> ms) [])) ms.

(** One turn of the publishing loop of [run]. *)
Definition publish_tick : M unit :=
  publish_goals ;;;
  (fun ms => publish_eef (end_effector ms) ms) ;;;
  publish_js ;;;
  emit RateSleep.

(** The loop of the teleport branch of [_cb_reach]. *)
Fixpoint teleport (target : gmap string Q) (names : list string) : M unit :=
  match names with
  | [] => ret tt
  | motor :: rest =>
      match index joint_whitelist motor with
      | Raise _ => teleport target rest
      | Return index =>
          v <- lift (getitem target motor) ;;
          set_motor index (Motor.set_goal_position v) (SetGoalPosition index v) ;;;
          teleport target rest
      end
  end.

Definition _cb_reach (self : ErgoJrControllers) (request : ReachTarget.t)
  : M ReachTargetResponse :=
  let names := JointState.name (ReachTarget.target request) in
  let target := dict (zip names (JointState.position (ReachTarget.target request))) in
  let duration := Duration.to_sec (ReachTarget.duration request) in
  (if leb0 duration then loginfo (Teleporting target)
   else loginfo (Reaching target duration)) ;;;
  with_lock
    (if leb0 duration then teleport target names
     else
       ergo_goto_position target (Duration.to_sec (ReachTarget.duration request)) ;;;
       reset_max_speed) ;;;
  ret mkReachTargetResponse.

(** The body of the [for] loop of [execute] at iteration [point_id], with
    [time] the elapsed time so far and [n = len(trajectory.points)]. *)
Definition execute_point (self : ErgoJrControllers) (rt : runtime)
    (joint_names : list string) (n point_id : nat)
    (point : JointTrajectoryPoint.t) (time : Q) : M (control Q) :=
  stop <- is_shutdown rt point_id ;;
  if stop : bool then ret (Break time)
  else
    let time_from_start :=
      Duration.to_sec (JointTrajectoryPoint.time_from_start point) in
    let duration := (time_from_start - time)%Q in
    if ltb0 duration then
      logwarn_args "Skipping invalid point {}/{} with incoherent time_from_start"
        [Z.of_nat (point_id + 1); Z.of_nat n] (SkippingPoint (point_id + 1) n) ;;;
      ret (Next time)
    else
      let target := dict (zip joint_names (JointTrajectoryPoint.positions point)) in
      time_margin <- lift (getitem (params self) "time_margin") ;;
      ergo_goto_position target (time_margin + duration)%Q ;;;
      sleep rt point_id (duration - 0.001)%Q ;;;
      ret (Next time_from_start).

(** The [for] loop of [execute]. *)
Definition execute_loop (self : ErgoJrControllers) (rt : runtime)
    (trajectory : JointTrajectory.t) : M (control Q) :=
  for_enumerate
    (execute_point self rt (JointTrajectory.joint_names trajectory)
       (length (JointTrajectory.points trajectory)))
    0 (JointTrajectory.points trajectory) 0%Q.

Definition execute (self : ErgoJrControllers) (rt : runtime)
    (trajectory : JointTrajectory.t) : M unit :=
  with_lock
    (loginfo (ExecutingTrajectory (length (JointTrajectory.points trajectory))) ;;;
     try_except_interrupt
       (execute_loop self rt trajectory)
       (logwarn TrajectoryAborted)
       (loginfo TrajectoryEnded)).

(** [_cb_execute] starts [execute] in a daemon thread and answers at once:
    the second component is the computation handed to the thread. *)
Definition _cb_execute (self : ErgoJrControllers) (rt : runtime)
    (request : ExecuteTrajectory.t) : ExecuteTrajectoryResponse * M unit :=
  let thread := execute self rt (ExecuteTrajectory.trajectory request) in
  (mkExecuteTrajectoryResponse, thread).

Definition _cb_set_compliant (self : ErgoJrControllers)
    (request : SetCompliantRequest.t) : M SetCompliantResponse :=
  let b := SetCompliantRequest.compliant request in
  loginfo (NowCompliant b) ;;;
  with_lock (for_each_motor (Motor.set_compliant b) (fun i => SetCompliant i b)) ;;;
  ret mkSetCompliantResponse.

End Controllers.

(** ** Startup *)

(** The ways [PoppyErgoJr(config=...)] can go: [FailsOtherwise] stands for
    any exception that is not an [IOError]. *)
Inductive creation :=
| Created (ms : list Motor.t)
| FailsWithIOError
| FailsOtherwise.

(** What the node finds when it starts: the dictionary in
    [config/ergo_jr.json] ([None] when the file is absent), the ROS parameter
    server, the node's namespace, and the SDK ([PoppyErgoJr(config=...)] and
    [power_up]). *)
Record host := mkHost {
  config_file : option (gmap string Q);
  ros_params : gmap string string;
  namespace : string;
  PoppyErgoJr : string -> creation;
  power_up : list Motor.t -> list Motor.t
}.

(** [rospy.get_param(name)] *)
Definition get_param (h : host) (name : string) : result string :=
  match ros_params h !! name with
  | Some v => Return v
  | None => Raise (KeyError name)
  end.

(** [rospy.Rate(hz)]: the period is computed as [1e9 / hz]. *)
Definition Rate (hz : Q) : result unit :=
  if Qeq_bool hz 0 then Raise ZeroDivisionError else Return tt.

Definition __init__ (h : host) (robot_name : string) : result ErgoJrControllers :=
  match config_file h with
  | None => Raise IOError
  | Some params =>
      match getitem params "publish_rate" with
      | Raise e => Raise e
      | Return publish_rate =>
          match Rate publish_rate with
          | Raise e => Raise e
          | Return _ => Return (mkErgoJrControllers params robot_name)
          end
      end
  end.

(** [run], up to the entry in the publishing loop. *)
Definition run (h : host) (self : ErgoJrControllers) : outcome unit :=
  match get_param h "description", get_param h "description_file" with
  | Return config, Return config_file =>
      match PoppyErgoJr h config_file with
      | FailsWithIOError =>
          mkOutcome (Raise (SystemExit (-1))) []
            [Log INFO Connecting; Log ERROR FailedToInit]
      | FailsOtherwise => mkOutcome (Raise Exception) [] [Log INFO Connecting]
      | Created ms =>
          mkOutcome (Return tt)
            (motors ((for_each_motor (Motor.set_compliant false)
                        (fun i => SetCompliant i false) ;;;
                      reset_max_speed) (power_up h ms)))
            (Log INFO Connecting
               :: trace ((for_each_motor (Motor.set_compliant false)
                            (fun i => SetCompliant i false) ;;;
                          reset_max_speed) (power_up h ms))
               ++ [Log INFO ControllersUp])
      end
  | _, _ =>
      mkOutcome (Raise (SystemExit (-1))) []
        [Log INFO Connecting; Log ERROR MissingDescription]
  end.

(** The exit status of the interpreter when [e] is not caught. *)
Definition exit_status (e : exn) : Z :=
  match e with
  | SystemExit code => code mod 256
  | _ => 1
  end.

Inductive process :=
| Exited (status : Z)
| Serving (self : ErgoJrControllers) (ms : list Motor.t).

Definition main (h : host) : process :=
  match __init__ h (namespace h) with
  | Raise e => Exited (exit_status e)
  | Return self =>
      match value (run h self) with
      | Raise e => Exited (exit_status e)
      | Return _ => Serving self (motors (run h self))
      end
  end.

(** ** Threads and the lock *)

(** [threading.RLock]: the thread that holds the lock, and how many times
    it has acquired it. *)
Record rlock := mkRLock {
  owner : option nat;
  depth : nat
}.

(** [acquire] by thread [t]: [None] when [t] has to wait. *)
Definition acquire (t : nat) (l : rlock) : option rlock :=
  match owner l with
  | None => Some (mkRLock (Some t) 1)
  | Some t' => if decide (t = t') then Some (mkRLock (Some t) (S (depth l))) else None
  end.

(** [release] by thread [t]: [None] when [t] does not hold the lock. *)
Definition release (t : nat) (l : rlock) : option rlock :=
  match owner l with
  | Some t' =>
      if decide (t = t') then
        match depth l with
        | 0 => None
        | 1 => Some (mkRLock None 0)
        | S d => Some (mkRLock (Some t) d)
        end
      else None
  | None => None
  end.

(** The threads of the node: for each thread the events it still has to
    perform, in program order, and the shared [robot_lock]. *)
Record node := mkNode {
  robot_lock : rlock;
  pending : list (list event)
}.

Definition start (threads : list (list event)) : node :=
  mkNode (mkRLock None 0) threads.

(** Thread [t] performs its next event; [None] when it has none or waits
    for the lock. *)
Definition step (t : nat) (s : node) : option node :=
  match pending s !! t with
  | Some (e :: rest) =>
      match e with
      | Acquire =>
          match acquire t (robot_lock s) with
          | Some l => Some (mkNode l (<[t := rest]> (pending s)))
          | None => None
          end
      | Release =>
          match release t (robot_lock s) with
          | Some l => Some (mkNode l (<[t := rest]> (pending s)))
          | None => None
          end
      | _ => Some (mkNode (robot_lock s) (<[t := rest]> (pending s)))
      end
  | _ => None
  end.

(** The node after the threads took their turns in the order [schedule]. *)
Fixpoint interleave (schedule : list nat) (s : node) : option node :=
  match schedule with
  | [] => Some s
  | t :: schedule' =>
      match step t s with
      | Some s' => interleave schedule' s'
      | None => None
      end
  end.

(** * Vocabulary of the properties *)

(** ** Requests and traces *)

(** The target dictionary [_cb_reach] builds from its request. *)
Definition reach_target (request : ReachTarget.t) : gmap string Q :=
  dict (zip (JointState.name (ReachTarget.target request))
            (JointState.position (ReachTarget.target request))).

Definition reach_duration (request : ReachTarget.t) : Q :=
  Duration.to_sec (ReachTarget.duration request).

(** The names of the request of a [reach]. *)
Definition reach_names (request : ReachTarget.t) : list string :=
  JointState.name (ReachTarget.target request).

(** The [goto_position] calls of a trace, in order. *)
Definition gotos (tr : list event) : list event := List.filter is_goto tr.

Definition is_log (e : event) : bool :=
  match e with Log _ _ => true | _ => false end.

Definition is_set_goal_position (e : event) : bool :=
  match e with SetGoalPosition _ _ => true | _ => false end.

Definition is_set_moving_speed (e : event) : bool :=
  match e with SetMovingSpeed _ _ => true | _ => false end.

Definition is_lock_event (e : event) : bool :=
  match e with Acquire | Release => true | _ => false end.

Definition whitelisted (motor : string) : bool :=
  match index joint_whitelist motor with
  | Return _ => true
  | Raise _ => false
  end.

(** The robot is an Ergo Jr: its motors are m1, ..., m6, in this order. *)
Definition is_ergo_jr (ms : list Motor.t) : Prop :=
  Motor.name <$> ms = joint_whitelist.

(** ** Trajectories *)

Definition time_from_start (point : JointTrajectoryPoint.t) : Q :=
  Duration.to_sec (JointTrajectoryPoint.time_from_start point).

(** The dictionary [execute] sends for a waypoint. *)
Definition waypoint_target (joint_names : list string) (point : JointTrajectoryPoint.t)
  : gmap string Q :=
  dict (zip joint_names (JointTrajectoryPoint.positions point)).

(** The loop of [execute] on [trajectory], run over the waypoints [points]
    from iteration [point_id] with elapsed time [time]. *)
Definition execute_from
    (goto_position : gmap string Q -> Q -> list Motor.t -> result unit * list Motor.t)
    (self : ErgoJrControllers) (rt : runtime) (trajectory : JointTrajectory.t)
    (point_id : nat) (time : Q) (points : list JointTrajectoryPoint.t)
  : M (control Q) :=
  for_enumerate
    (execute_point goto_position self rt (JointTrajectory.joint_names trajectory)
       (length (JointTrajectory.points trajectory)))
    point_id points time.

Definition times (points : list JointTrajectoryPoint.t) : list Q :=
  time_from_start <$> points.

Fixpoint increasing_after (prev : Q) (l : list Q) : Prop :=
  match l with
  | [] => True
  | x :: r => (prev < x)%Q /\ increasing_after x r
  end.

Definition strictly_increasing (l : list Q) : Prop :=
  match l with
  | [] => True
  | x :: r => increasing_after x r
  end.

(** Every time of [l] is at or after the one before it, the first one at or
    after [time]. *)
Fixpoint chronological (time : Q) (l : list Q) : Prop :=
  match l with
  | [] => True
  | x :: r => (time <= x)%Q /\ chronological x r
  end.

(** The [goto_position] calls of a run with no negative duration, from elapsed
    time [prev]. *)
Fixpoint expected_gotos (time_margin : Q) (joint_names : list string) (prev : Q)
    (points : list JointTrajectoryPoint.t) : list event :=
  match points with
  | [] => []
  | point :: rest =>
      GotoPosition (waypoint_target joint_names point)
        (time_margin + (time_from_start point - prev))%Q
      :: expected_gotos time_margin joint_names (time_from_start point) rest
  end.

(** Every [goto_position] call of a run with no negative duration returns: the
    calls are those of [expected_gotos], each one on the motors the call
    before it left. *)
Fixpoint goto_returns
    (goto_position : gmap string Q -> Q -> list Motor.t -> result unit * list Motor.t)
    (time_margin : Q) (joint_names : list string) (prev : Q)
    (points : list JointTrajectoryPoint.t) (ms : list Motor.t) : Prop :=
  match points with
  | [] => True
  | point :: rest =>
      let target := waypoint_target joint_names point in
      let duration := (time_margin + (time_from_start point - prev))%Q in
      (goto_position target duration ms).1 = Return tt /\
      goto_returns goto_position time_margin joint_names (time_from_start point) rest
        (goto_position target duration ms).2
  end.

(** The durations handed to [rospy.sleep], in order. *)
Fixpoint waits (tr : list event) : list Q :=
  match tr with
  | [] => []
  | Sleep d _ :: r => d :: waits r
  | _ :: r => waits r
  end.

Fixpoint Qsum (l : list Q) : Q :=
  match l with
  | [] => 0%Q
  | x :: r => (x + Qsum r)%Q
  end.

(** A runtime that is quiet during the first [n] iterations. *)
Definition quiet_for (n : nat) (rt : runtime) : Prop :=
  forall k, (k < n)%nat -> shutdown_at rt k = false /\ interrupted_at rt k = false.

(** What [execute] logs after its loop, by the way the loop ended. *)
Definition closing_log {A} (v : result A) : list event :=
  match v with
  | Return _ => [Log INFO TrajectoryEnded]
  | Raise ROSInterruptException => [Log WARN TrajectoryAborted]
  | Raise _ => []
  end.

Definition after_try {A} (v : result A) : result unit :=
  match v with
  | Return _ => Return tt
  | Raise ROSInterruptException => Return tt
  | Raise e => Raise e
  end.

(** ** Shutdown *)

(** The shutdown signal as the executor sees it: [rospy.is_shutdown()]
    answering [True], or [rospy.sleep] raising. *)
Definition stop_signal (e : event) : bool :=
  match e with
  | IsShutdown true | Sleep _ true => true
  | _ => false
  end.

(** Events of the handling of a waypoint. *)
Definition waypoint_event (e : event) : bool :=
  match e with
  | IsShutdown _ | Sleep _ _ | Log _ (SkippingPoint _ _) => true
  | _ => touches_robot e
  end.

(** ** Threads *)

(** The events of a thread that does, or does not yet, hold the lock: it
    acquires before it releases, never twice, and touches the robot only
    while it holds the lock. *)
Fixpoint guarded (holding : bool) (tr : list event) : bool :=
  match tr with
  | [] => negb holding
  | Acquire :: r => negb holding && guarded true r
  | Release :: r => holding && guarded false r
  | e :: r => (negb (touches_robot e) || holding) && guarded holding r
  end.

(** The event sequences of the threads of the node: a service call of
    [reach] or [set_compliant], a thread started by [_cb_execute], a turn of
    the publishing loop; on any request, robot and runtime. *)
Inductive handler_trace : list event -> Prop :=
| reach_trace goto_position self request ms :
    handler_trace (trace (_cb_reach goto_position self request ms))
| execute_trace goto_position self rt trajectory ms :
    handler_trace (trace (execute goto_position self rt trajectory ms))
| set_compliant_trace self request ms :
    handler_trace (trace (_cb_set_compliant self request ms))
| publish_trace end_effector ms :
    handler_trace (trace (publish_tick end_effector ms)).

(** What holds of the node at any time: each thread's pending events are
    guarded according to whether it holds the lock, and the lock is held at
    most once. *)
Definition lock_invariant (s : node) : Prop :=
  (forall t tr, pending s !! t = Some tr ->
     guarded (bool_decide (owner (robot_lock s) = Some t)) tr = true) /\
  depth (robot_lock s) = match owner (robot_lock s) with Some _ => 1%nat | None => 0%nat end.

(** ** The publishing loop *)

(** [self.publish_rate.sleep()] at turn [i] of the loop of [run]: it raises
    when ROS is shut down during the sleep ([interrupted_at rt i]). *)
Definition rate_sleep (rt : runtime) (i : nat) : M unit :=
  fun ms =>
    mkOutcome (if interrupted_at rt i then Raise ROSInterruptException else Return tt)
              ms [RateSleep].

(** The body of the [while] loop of [run], at turn [i]. *)
Definition publish_turn (end_effector : list Motor.t -> Q * Q * Q)
    (rt : runtime) (i : nat) : M unit :=
  publish_goals ;;;
  (fun ms => publish_eef (end_effector ms) ms) ;;;
  publish_js ;;;
  rate_sleep rt i.

(** [while not rospy.is_shutdown(): ...] from turn [i], for at most [fuel]
    turns: the value tells whether the loop was left ([true]) or the fuel
    ran out ([false]). *)
Fixpoint publish_loop (end_effector : list Motor.t -> Q * Q * Q)
    (rt : runtime) (fuel i : nat) : M bool :=
  match fuel with
  | 0 => ret false
  | S fuel' =>
      stop <- is_shutdown rt i ;;
      if stop : bool then ret true
      else
        publish_turn end_effector rt i ;;;
        publish_loop end_effector rt fuel' (S i)
  end.

(** ** More vocabulary *)

Definition is_publish (e : event) : bool :=
  match e with Publish _ _ => true | _ => false end.

Definition is_skip_warning (e : event) : bool :=
  match e with Log WARN (SkippingPoint _ _) => true | _ => false end.

(** The [JointState] messages published on [topic], in order. *)
Fixpoint joint_states_on (topic : string) (tr : list event) : list JointState.t :=
  match tr with
  | [] => []
  | Publish topic' (JointStateMsg js) :: r =>
      if decide (topic' = topic) then js :: joint_states_on topic r
      else joint_states_on topic r
  | _ :: r => joint_states_on topic r
  end.

(** The threads of a node that still have something to do. *)
Definition busy (s : node) : Prop :=
  exists t e rest, pending s !! t = Some (e :: rest).

(** With the time margin [time_margin], a [goto_position] lasts at least the
    margin and a [rospy.sleep] is at most 0.001 s short of zero. *)
Definition within_bounds (time_margin : Q) (e : event) : Prop :=
  match e with
  | GotoPosition _ duration => (time_margin <= duration)%Q
  | Sleep d _ => (- (0.001) <= d)%Q
  | _ => True
  end.

(** The only events of a trace that act on the robot are calls of
    [goto_position]. *)
Definition only_gotos (tr : list event) : bool :=
  forallb (fun e => negb (touches_robot e) || is_goto e) tr.

Definition skip_warnings (tr : list event) : list event :=
  List.filter is_skip_warning tr.

Definition lock_free (tr : list event) : bool :=
  forallb (fun e => negb (is_lock_event e)) tr.

(** The [JointState] that [publish_js] sends for the motors [ms]. *)
Definition joint_state_of (ms : list Motor.t) : JointState.t :=
  JointState.mk (Motor.name <$> ms) (Motor.present_position <$> ms)
    (Motor.present_speed <$> ms) (Motor.present_load <$> ms).

(** The [JointState] that [publish_goals] sends for the motors [ms]. *)
Definition joint_goals_of (ms : list Motor.t) : JointState.t :=
  JointState.mk (Motor.name <$> ms) (Motor.goal_position <$> ms)
    (Motor.goal_speed <$> ms) [].

Definition publications (tr : list event) : list event := List.filter is_publish tr.

(** The thread that holds the lock is one of the threads of the node. *)
Definition owner_is_thread (s : node) : Prop :=
  forall t, owner (robot_lock s) = Some t -> is_Some (pending s !! t).

(** Every thread of the node has performed all its events. *)
Definition idle (s : node) : Prop :=
  forall t tr, pending s !! t = Some tr -> tr = [].

(** The number of events the threads of a node still have to perform. *)
Definition remaining (s : node) : nat := sum_list_with length (pending s).

(** * A concrete robot to run the handlers on *)

(** A stand-in for the SDK's [goto_position], used to evaluate the handlers
    on examples: like pypot's "dummy" control, every named motor gets the
    requested goal position and a throttled moving speed; a name that is no
    motor of the robot raises [AttributeError]. *)
Definition dummy_goto_position (target : gmap string Q) (duration : Q)
    (ms : list Motor.t) : result unit * list Motor.t :=
  if forallb (fun name => bool_decide (name ∈ Motor.name <$> ms)) (map_to_list target).*1
  then
    (Return tt,
     (fun m =>
        match target !! Motor.name m with
        | Some v =>
            Motor.set_moving_speed ((v - Motor.present_position m) / duration)%Q
              (Motor.set_goal_position v m)
        | None => m
        end) <$> ms)
  else (Raise AttributeError, ms).

Definition rest_motor (name : string) : Motor.t :=
  Motor.mk name 0 0 0 0 0 100 false.

(** The six motors of an Ergo Jr, at rest. *)
Definition ergo_jr : list Motor.t := rest_motor <$> joint_whitelist.

Definition ergo_jr_params : gmap string Q :=
  {[ "publish_rate" := 10%Q; "time_margin" := 0.5%Q ]}.

Definition poppy : ErgoJrControllers := mkErgoJrControllers ergo_jr_params "poppy".

(** The Ergo Jr with the moving speed of every motor throttled to 15. *)
Definition throttled : list Motor.t := Motor.set_moving_speed 15 <$> ergo_jr.

(** A [reach] request, over two seconds, that names a joint the Ergo Jr does
    not have. *)
Definition reach_elbow : ReachTarget.t :=
  ReachTarget.mk (JointState.mk ["m1"; "elbow"] [30%Q; 10%Q] [] []) (Duration.mk 2 0).

(** A run during which ROS is never shut down. *)
Definition quiet : runtime := mkRuntime (fun _ => false) (fun _ => false).

(** ROS is shut down when the loop gets to iteration [i]. *)
Definition shutdown_from (i : nat) : runtime :=
  mkRuntime (fun k => bool_decide (i <= k)%nat) (fun _ => false).

(** The [rospy.sleep] of iteration [i] is interrupted. *)
Definition interrupted_during (i : nat) : runtime :=
  mkRuntime (fun _ => false) (fun k => bool_decide (i <= k)%nat).

(** A waypoint at a whole number of seconds. *)
Definition waypoint (secs : Z) (positions : list Q) : JointTrajectoryPoint.t :=
  JointTrajectoryPoint.mk positions (Duration.mk secs 0).

(** Three waypoints, the last one out of chronological order. *)
Definition zigzag : JointTrajectory.t :=
  JointTrajectory.mk ["m1"; "m2"]
    [waypoint 1 [10%Q; 20%Q]; waypoint 3 [30%Q; 40%Q]; waypoint 2 [0%Q; 0%Q]].

(** Four waypoints, the third one out of chronological order. *)
Definition detour : JointTrajectory.t :=
  JointTrajectory.mk ["m1"; "m2"]
    [waypoint 1 [10%Q; 20%Q]; waypoint 3 [30%Q; 40%Q]; waypoint 2 [0%Q; 0%Q];
     waypoint 4 [50%Q; 60%Q]].

(** Two waypoints in chronological order, for a joint the Ergo Jr does not
    have. *)
Definition astray : JointTrajectory.t :=
  JointTrajectory.mk ["m1"; "elbow"]
    [waypoint 0 [10%Q; 20%Q]; waypoint 1 [30%Q; 40%Q]].

(** Two waypoints in chronological order. *)
Definition sweep : JointTrajectory.t :=
  JointTrajectory.mk ["m1"; "m2"]
    [waypoint 0 [10%Q; 20%Q]; waypoint 2 [30%Q; 40%Q]].

(** A host on which the ROS parameters are set and the robot answers, with
    [params] in the configuration file. *)
Definition lab (params : gmap string Q) : host :=
  mkHost (Some params)
    {[ "description" := "<robot/>"; "description_file" := "poppy_ergo_jr.json" ]}
    "poppy" (fun _ => Created ergo_jr) (fun ms => ms).

(** A stand-in for the SDK's forward kinematics. *)
Definition origin_end_effector (ms : list Motor.t) : Q * Q * Q := (0%Q, 0%Q, 0%Q).

(** * Properties *)

(** ** Running computations *)

Lemma outcome_eta {A} (o : outcome A) : mkOutcome (value o) (motors o) (trace o) = o.
Proof. by destruct o. Qed.

Lemma bind_lift_Return {A B} (a : A) (k : A -> M B) ms :
  bind (lift (Return a)) k ms = k a ms.
Proof. unfold bind, lift. cbn. apply outcome_eta. Qed.

Lemma bind_lift_Raise {A B} (e : exn) (k : A -> M B) ms :
  bind (lift (Raise e)) k ms = mkOutcome (Raise e) ms [].
Proof. done. Qed.

Lemma bind_emit {B} (e : event) (k : unit -> M B) ms :
  bind (emit e) k ms
  = mkOutcome (value (k tt ms)) (motors (k tt ms)) (e :: trace (k tt ms)).
Proof. done. Qed.

Lemma bind_Return {A B} (c : M A) (k : A -> M B) ms a :
  value (c ms) = Return a ->
  bind c k ms
  = mkOutcome (value (k a (motors (c ms)))) (motors (k a (motors (c ms))))
              (trace (c ms) ++ trace (k a (motors (c ms)))).
Proof. intros H. unfold bind. by rewrite H. Qed.

Lemma bind_Raise {A B} (c : M A) (k : A -> M B) ms e :
  value (c ms) = Raise e ->
  bind c k ms = mkOutcome (Raise e) (motors (c ms)) (trace (c ms)).
Proof. intros H. unfold bind. by rewrite H. Qed.

(** ** Comparisons *)

Lemma ltb0_true (x : Q) : ltb0 x = true <-> (x < 0)%Q.
Proof.
  unfold ltb0. rewrite negb_true_iff, <- not_true_iff_false, Qle_bool_iff.
  split; [apply Qnot_le_lt | apply Qlt_not_le].
Qed.

Lemma ltb0_false (x : Q) : ltb0 x = false <-> (0 <= x)%Q.
Proof. unfold ltb0. rewrite negb_false_iff. apply Qle_bool_iff. Qed.

Lemma leb0_true (x : Q) : leb0 x = true <-> (x <= 0)%Q.
Proof. apply Qle_bool_iff. Qed.

Lemma leb0_false (x : Q) : leb0 x = false <-> (0 < x)%Q.
Proof.
  unfold leb0. rewrite <- not_true_iff_false, Qle_bool_iff.
  split; [apply Qnot_le_lt | apply Qlt_not_le].
Qed.

(** ** [set_compliant] *)

(** C6: whatever the flag [b] of a [set_compliant] request, the handler
    returns its acknowledgment, and afterwards the robot has the same motors,
    each with its compliance flag equal to [b] and nothing else changed. *)
Theorem set_compliant_sets_every_motor
    (self : ErgoJrControllers) (request : SetCompliantRequest.t) (ms : list Motor.t) :
  value (_cb_set_compliant self request ms) = Return mkSetCompliantResponse /\
  motors (_cb_set_compliant self request ms)
    = Motor.set_compliant (SetCompliantRequest.compliant request) <$> ms /\
  length (motors (_cb_set_compliant self request ms)) = length ms /\
  (forall m, m ∈ motors (_cb_set_compliant self request ms) ->
     Motor.compliant m = SetCompliantRequest.compliant request).
Proof.
  cbn. repeat split.
  - by rewrite length_fmap.
  - intros m Hm. apply list_elem_of_fmap in Hm as (m0 & -> & _). done.
Qed.

(** ** [reach] with a positive duration *)

Lemma gotos_imap_none {A} (f : nat -> A -> event) (l : list A) :
  (forall i x, is_goto (f i x) = false) -> gotos (imap f l) = [].
Proof.
  unfold gotos. revert f. induction l as [|x l IH]; intros f Hf; [done|].
  cbn. rewrite Hf. apply IH. intros i y. apply Hf.
Qed.

Lemma gotos_app (tr1 tr2 : list event) : gotos (tr1 ++ tr2) = gotos tr1 ++ gotos tr2.
Proof. apply List.filter_app. Qed.

(** C5, at an input where it fails: a [reach] request over two seconds that
    names a joint the robot does not have.  The SDK raises, the moving
    speeds are not reset and no acknowledgment is returned. *)
Lemma reach_unknown_joint_raises :
  (0 < reach_duration reach_elbow)%Q /\
  value (_cb_reach dummy_goto_position poppy reach_elbow throttled)
    = Raise AttributeError /\
  trace (_cb_reach dummy_goto_position poppy reach_elbow throttled)
    = [Log INFO (Reaching (reach_target reach_elbow) (reach_duration reach_elbow));
       Acquire;
       GotoPosition (reach_target reach_elbow) (reach_duration reach_elbow);
       Release] /\
  Motor.moving_speed
    <$> motors (_cb_reach dummy_goto_position poppy reach_elbow throttled)
    = [15%Q; 15%Q; 15%Q; 15%Q; 15%Q; 15%Q].
Proof. vm_compute. repeat split; reflexivity. Qed.

(** C5, amended: a [reach] request with a positive duration hands the whole
    target dictionary to [goto_position] with that duration, once.  When
    that call returns, the handler then resets the moving speed of every
    motor and returns its acknowledgment: every motor's moving speed is 100.
    When that call raises, the handler raises the same exception and leaves
    the motors as the call left them: no moving speed is reset. *)
Theorem reach_positive_duration_goto_then_reset
    (goto_position : gmap string Q -> Q -> list Motor.t -> result unit * list Motor.t)
    (self : ErgoJrControllers) (request : ReachTarget.t) (ms : list Motor.t) :
  (0 < reach_duration request)%Q ->
  gotos (trace (_cb_reach goto_position self request ms))
    = [GotoPosition (reach_target request) (reach_duration request)] /\
  ((goto_position (reach_target request) (reach_duration request) ms).1 = Return tt ->
   value (_cb_reach goto_position self request ms) = Return mkReachTargetResponse /\
   motors (_cb_reach goto_position self request ms)
     = Motor.set_moving_speed 100
         <$> (goto_position (reach_target request) (reach_duration request) ms).2 /\
   (forall m, m ∈ motors (_cb_reach goto_position self request ms) ->
      Motor.moving_speed m = 100%Q)) /\
  (forall e,
     (goto_position (reach_target request) (reach_duration request) ms).1 = Raise e ->
     value (_cb_reach goto_position self request ms) = Raise e /\
     motors (_cb_reach goto_position self request ms)
       = (goto_position (reach_target request) (reach_duration request) ms).2 /\
     List.filter is_set_moving_speed (trace (_cb_reach goto_position self request ms)) = []).
Proof.
  intros Hd. apply leb0_false in Hd. unfold reach_duration in *. unfold reach_target.
  unfold _cb_reach. rewrite Hd.
  unfold bind, with_lock, ergo_goto_position, reset_max_speed, for_each_motor, ret,
    loginfo, emit.
  cbn [value motors trace].
  destruct (goto_position _ _ ms).1 as [[]|err]; cbn [value motors trace app].
  - split; [|split; [|done]].
    + cbn. f_equal. change (List.filter is_goto) with gotos.
      rewrite app_nil_r, gotos_app, gotos_imap_none; done.
    + intros _. repeat split.
      intros m Hm. apply list_elem_of_fmap in Hm as (m0 & -> & _). done.
  - split; [done|]. split; [done|]. by intros e [= <-].
Qed.

Lemma reach_positive_duration_witness :
  (0 < reach_duration
         (ReachTarget.mk (JointState.mk ["m1"; "m4"] [30%Q; -45%Q] [] []) (Duration.mk 2 0)))%Q /\
  Motor.moving_speed
    <$> (dummy_goto_position
           (reach_target
              (ReachTarget.mk (JointState.mk ["m1"; "m4"] [30%Q; -45%Q] [] []) (Duration.mk 2 0)))
           2 ergo_jr).2
    = [(30 / 2)%Q; 100%Q; 100%Q; (-45 / 2)%Q; 100%Q; 100%Q] /\
  forall m,
    m ∈ motors (_cb_reach dummy_goto_position poppy
                  (ReachTarget.mk (JointState.mk ["m1"; "m4"] [30%Q; -45%Q] [] [])
                                  (Duration.mk 2 0)) ergo_jr) ->
    Motor.moving_speed m = 100%Q.
Proof.
  split; [reflexivity|]. split; [vm_compute; reflexivity|].
  destruct (reach_positive_duration_goto_then_reset dummy_goto_position poppy
              (ReachTarget.mk (JointState.mk ["m1"; "m4"] [30%Q; -45%Q] [] [])
                              (Duration.mk 2 0))
              ergo_jr) as (_ & Hreturns & _).
  - reflexivity.
  - destruct Hreturns as (_ & _ & Hspeed); [vm_compute; reflexivity|exact Hspeed].
Defined.

(** ** [reach] with a duration that is not positive: the teleport branch *)

Lemma index_lookup (l : list string) (x : string) (i : nat) :
  index l x = Return i -> l !! i = Some x.
Proof.
  revert i. induction l as [|y l IH]; intros i; cbn; [done|].
  case_decide as Hy; [by intros [= <-]; subst|].
  destruct (index l x) as [j|e]; [|done].
  intros [= <-]. cbn. by apply IH.
Qed.

Lemma index_of_lookup (l : list string) (x : string) (i : nat) :
  NoDup l -> l !! i = Some x -> index l x = Return i.
Proof.
  intros Hnd. revert i. induction Hnd as [|y l Hy Hnd IH]; intros i; [done|].
  destruct i as [|i]; cbn.
  - intros [= ->]. by rewrite decide_True.
  - intros Hi. rewrite decide_False.
    + by rewrite (IH i Hi).
    + intros ->. apply Hy. eapply list_elem_of_lookup_2, Hi.
Qed.

Lemma joint_whitelist_NoDup : NoDup joint_whitelist.
Proof. compute_done. Qed.

Section Teleport.

Variable target : gmap string Q.

Lemma teleport_cons_skip motor rest e ms :
  index joint_whitelist motor = Raise e ->
  teleport target (motor :: rest) ms = teleport target rest ms.
Proof. intros H. cbn [teleport]. by rewrite H. Qed.

Lemma teleport_cons_KeyError motor rest i ms :
  index joint_whitelist motor = Return i ->
  target !! motor = None ->
  teleport target (motor :: rest) ms = mkOutcome (Raise (KeyError motor)) ms [].
Proof.
  intros Hi Hv. cbn [teleport]. rewrite Hi.
  unfold getitem. rewrite Hv. apply bind_lift_Raise.
Qed.

Lemma teleport_cons_IndexError motor rest i v ms :
  index joint_whitelist motor = Return i ->
  target !! motor = Some v ->
  ms !! i = None ->
  teleport target (motor :: rest) ms = mkOutcome (Raise IndexError) ms [].
Proof.
  intros Hi Hv Hm. cbn [teleport]. rewrite Hi.
  unfold getitem. rewrite Hv, bind_lift_Return.
  rewrite (bind_Raise _ _ _ IndexError); unfold set_motor; by rewrite Hm.
Qed.

Lemma teleport_cons_set motor rest i v m ms :
  index joint_whitelist motor = Return i ->
  target !! motor = Some v ->
  ms !! i = Some m ->
  teleport target (motor :: rest) ms
  = mkOutcome
      (value (teleport target rest (<[i := Motor.set_goal_position v m]> ms)))
      (motors (teleport target rest (<[i := Motor.set_goal_position v m]> ms)))
      (SetGoalPosition i v
         :: trace (teleport target rest (<[i := Motor.set_goal_position v m]> ms))).
Proof.
  intros Hi Hv Hm. cbn [teleport]. rewrite Hi.
  unfold getitem. rewrite Hv, bind_lift_Return.
  rewrite (bind_Return _ _ _ tt); unfold set_motor; by rewrite Hm.
Qed.

(** The four ways one iteration of the loop can go. *)
Ltac teleport_step motor rest ms :=
  let i := fresh "i" in
  let e := fresh "e" in
  let v := fresh "v" in
  let m := fresh "m" in
  let Hi := fresh "Hi" in
  let Hv := fresh "Hv" in
  let Hm := fresh "Hm" in
  destruct (index joint_whitelist motor) as [i|e] eqn:Hi;
  [ destruct (target !! motor) as [v|] eqn:Hv;
    [ destruct (ms !! i) as [m|] eqn:Hm;
      [ rewrite (teleport_cons_set motor rest i v m ms Hi Hv Hm)
      | rewrite (teleport_cons_IndexError motor rest i v ms Hi Hv Hm) ]
    | rewrite (teleport_cons_KeyError motor rest i ms Hi Hv) ]
  | rewrite (teleport_cons_skip motor rest e ms Hi) ].

(** Only goal positions are written, and only with [SetGoalPosition]. *)
Lemma teleport_frame names ms :
  length (motors (teleport target names ms)) = length ms /\
  (forall i m, ms !! i = Some m ->
     exists v, motors (teleport target names ms) !! i
               = Some (Motor.set_goal_position v m)) /\
  forallb is_set_goal_position (trace (teleport target names ms)) = true.
Proof.
  revert ms. induction names as [|motor rest IH]; intros ms.
  - cbn. split; [done|]. split; [|done].
    intros i m Hm. exists (Motor.goal_position m). rewrite Hm. by destruct m.
  - assert (Hid : forall i m, ms !! i = Some m ->
              exists v, ms !! i = Some (Motor.set_goal_position v m)).
    { intros i m Hm. exists (Motor.goal_position m). rewrite Hm. by destruct m. }
    teleport_step motor rest ms; cbn [motors trace value]; try (by auto).
    destruct (IH (<[i := Motor.set_goal_position v m]> ms)) as (Hlen & Hfr & Htr).
    split; [by rewrite Hlen, length_insert|]. split; [|by cbn; rewrite Htr].
    intros j mj Hj. destruct (decide (i = j)) as [->|Hne].
    + assert (mj = m) as -> by congruence.
      destruct (Hfr j (Motor.set_goal_position v m)) as [w Hw].
      { apply list_lookup_insert_eq. by eapply lookup_lt_Some. }
      exists w. by rewrite Hw.
    + apply Hfr. by rewrite list_lookup_insert_ne.
Qed.

(** A motor is written only through the name at its index in the
    whitelist, and only if the target has that name. *)
Lemma teleport_untouched names ms i :
  (forall motor, joint_whitelist !! i = Some motor -> motor ∈ names ->
     target !! motor = None) ->
  motors (teleport target names ms) !! i = ms !! i.
Proof.
  revert ms. induction names as [|motor rest IH]; intros ms Hno; [done|].
  assert (Hrest : forall motor', joint_whitelist !! i = Some motor' ->
                    motor' ∈ rest -> target !! motor' = None).
  { intros motor' Hw Hin. apply Hno; [done|]. by apply elem_of_cons; right. }
  teleport_step motor rest ms; cbn [motors]; try done; [|by apply IH].
  rewrite IH by done.
  apply list_lookup_insert_ne. intros ->.
  apply index_lookup in Hi.
  rewrite (Hno motor Hi) in Hv; [done|]. by apply elem_of_cons; left.
Qed.

(** Once the motor at the index of [motor] holds [target[motor]], the
    rest of the loop keeps it so. *)
Lemma teleport_keeps_goal names ms motor i v m :
  index joint_whitelist motor = Return i ->
  target !! motor = Some v ->
  ms !! i = Some m ->
  Motor.goal_position m = v ->
  exists m', motors (teleport target names ms) !! i = Some m' /\
             Motor.goal_position m' = v.
Proof.
  intros Hidx Htv. revert ms m.
  induction names as [|a rest IH]; intros ms m Hm Hg; [by exists m|].
  teleport_step a rest ms; cbn [motors]; try (by exists m); [|by eapply IH].
  destruct (decide (i0 = i)) as [->|Hne].
  - assert (a = motor) as ->.
    { apply index_lookup in Hi, Hidx. congruence. }
    eapply IH; [apply list_lookup_insert_eq; by eapply lookup_lt_Some|].
    cbn. congruence.
  - eapply IH; [|done]. by rewrite list_lookup_insert_ne.
Qed.

(** With six motors or more and a position for every whitelisted name,
    the loop ends normally and every whitelisted name has been served. *)
Lemma teleport_sets_goals names ms :
  (length joint_whitelist <= length ms)%nat ->
  (forall motor, motor ∈ names -> motor ∈ joint_whitelist ->
     is_Some (target !! motor)) ->
  value (teleport target names ms) = Return tt /\
  (forall motor i, motor ∈ names -> joint_whitelist !! i = Some motor ->
     exists m, motors (teleport target names ms) !! i = Some m /\
               target !! motor = Some (Motor.goal_position m)).
Proof.
  revert ms. induction names as [|a rest IH]; intros ms Hlen Hpos.
  { split; [done|]. intros motor i Hin. by apply elem_of_nil in Hin. }
  assert (Hrest : forall motor, motor ∈ rest -> motor ∈ joint_whitelist ->
                    is_Some (target !! motor)).
  { intros motor Hin. apply Hpos. by apply elem_of_cons; right. }
  teleport_step a rest ms; cbn [motors value].
  - destruct (IH (<[i := Motor.set_goal_position v m]> ms)) as [Hval Hgoal];
      [by rewrite length_insert|done|].
    split; [done|]. intros motor j Hin Hj.
    apply elem_of_cons in Hin as [->|Hin]; [|by apply Hgoal].
    apply (index_of_lookup _ _ _ joint_whitelist_NoDup) in Hj.
    assert (j = i) as -> by congruence.
    destruct (teleport_keeps_goal rest (<[i := Motor.set_goal_position v m]> ms)
                a i v (Motor.set_goal_position v m)) as (m' & Hm' & Hg); try done.
    { apply list_lookup_insert_eq. by eapply lookup_lt_Some. }
    exists m'. split; [done|]. by rewrite Hg.
  - apply index_lookup in Hi. apply lookup_lt_Some in Hi.
    apply lookup_ge_None in Hm. lia.
  - destruct (Hpos a) as [v Hv']; [by apply elem_of_cons; left| |congruence].
    apply index_lookup in Hi. by eapply list_elem_of_lookup_2.
  - destruct (IH ms) as [Hval Hgoal]; [done..|].
    split; [done|]. intros motor j Hin Hj.
    apply elem_of_cons in Hin as [->|Hin]; [|by apply Hgoal].
    apply (index_of_lookup _ _ _ joint_whitelist_NoDup) in Hj. congruence.
Qed.

(** Names outside the whitelist do not take part in the loop. *)
Lemma teleport_ignores_unknown names ms :
  teleport target names ms = teleport target (List.filter whitelisted names) ms.
Proof.
  revert ms. induction names as [|a rest IH]; intros ms; [done|].
  cbn [List.filter]. unfold whitelisted at 1.
  destruct (index joint_whitelist a) as [i|e] eqn:Hi.
  - cbn [teleport]. rewrite Hi. unfold bind.
    destruct (lift (getitem target a) ms) as [[v|e] ms1 tr1]; cbn; [|done].
    destruct (set_motor _ _ _ ms1) as [[[]|e] ms2 tr2]; cbn; [|done].
    by rewrite IH.
  - rewrite (teleport_cons_skip a rest e ms Hi). apply IH.
Qed.

End Teleport.

(** In the teleport branch the handler is its log line, then the loop under
    the lock. *)
Lemma cb_reach_teleport
    (goto_position : gmap string Q -> Q -> list Motor.t -> result unit * list Motor.t)
    (self : ErgoJrControllers) (request : ReachTarget.t) (ms : list Motor.t) :
  (reach_duration request <= 0)%Q ->
  value (_cb_reach goto_position self request ms)
  = match value (teleport (reach_target request) (reach_names request) ms) with
    | Return _ => Return mkReachTargetResponse
    | Raise e => Raise e
    end /\
  motors (_cb_reach goto_position self request ms)
  = motors (teleport (reach_target request) (reach_names request) ms) /\
  trace (_cb_reach goto_position self request ms)
  = Log INFO (Teleporting (reach_target request))
      :: Acquire
      :: trace (teleport (reach_target request) (reach_names request) ms) ++ [Release].
Proof.
  intros Hd. apply leb0_true in Hd. unfold reach_duration in Hd.
  unfold _cb_reach. rewrite Hd. unfold loginfo. rewrite bind_emit.
  fold (reach_target request). fold (reach_names request).
  unfold bind, with_lock. cbn [value motors trace].
  destruct (value (teleport _ _ ms)); cbn; by rewrite ?app_nil_r.
Qed.

Lemma set_goal_events_not_logs (tr : list event) :
  forallb is_set_goal_position tr = true ->
  List.filter is_log tr = [] /\ gotos tr = [] /\
  forallb (fun e => negb (is_goto e) && negb (is_set_moving_speed e)) tr = true.
Proof.
  induction tr as [|e tr IH]; [done|]. cbn.
  intros [He Htr]%andb_true_iff. destruct (IH Htr) as (Hl & Hg & Hf).
  destruct e; done.
Qed.

(** C4, at an input where it fails: a request that names m1 without giving
    it a position makes the handler raise [KeyError] instead of returning
    its acknowledgment. *)
Lemma reach_teleport_missing_position_raises :
  (reach_duration (ReachTarget.mk (JointState.mk ["m1"] [] [] []) (Duration.mk 0 0)) <= 0)%Q /\
  is_ergo_jr ergo_jr /\
  value (_cb_reach dummy_goto_position poppy
           (ReachTarget.mk (JointState.mk ["m1"] [] [] []) (Duration.mk 0 0)) ergo_jr)
  = Raise (KeyError "m1").
Proof. split; [by vm_compute|]. split; reflexivity. Qed.

(** C4, amended: for a [reach] request with a duration that is not positive
    in which every whitelisted name has a position in the target dictionary,
    served on an Ergo Jr, the handler returns its acknowledgment, never calls
    [goto_position], and for every whitelisted name of the request the motor
    of that name ends with the requested goal position.  Names outside the
    whitelist are ignored: the robot ends as if the loop had run over the
    whitelisted names only, and the only log line is the INFO line that
    announces the teleport. *)
Theorem reach_teleport_sets_whitelisted_goals
    (goto_position : gmap string Q -> Q -> list Motor.t -> result unit * list Motor.t)
    (self : ErgoJrControllers) (request : ReachTarget.t) (ms : list Motor.t) :
  (reach_duration request <= 0)%Q ->
  is_ergo_jr ms ->
  Forall (fun motor => motor ∈ joint_whitelist -> is_Some (reach_target request !! motor))
         (reach_names request) ->
  value (_cb_reach goto_position self request ms) = Return mkReachTargetResponse /\
  gotos (trace (_cb_reach goto_position self request ms)) = [] /\
  (forall motor, motor ∈ reach_names request -> motor ∈ joint_whitelist ->
     exists i m, motors (_cb_reach goto_position self request ms) !! i = Some m /\
                 Motor.name m = motor /\
                 reach_target request !! motor = Some (Motor.goal_position m)) /\
  motors (_cb_reach goto_position self request ms)
    = motors (teleport (reach_target request)
                (List.filter whitelisted (reach_names request)) ms) /\
  List.filter is_log (trace (_cb_reach goto_position self request ms))
    = [Log INFO (Teleporting (reach_target request))].
Proof.
  intros Hd Hergo Hpos.
  destruct (cb_reach_teleport goto_position self request ms Hd) as (Hv & Hm & Ht).
  rewrite Hv, Hm, Ht. clear Hv Hm Ht.
  assert (Hlen : (length joint_whitelist <= length ms)%nat).
  { unfold is_ergo_jr in Hergo. by rewrite <- Hergo, length_fmap. }
  rewrite Forall_forall in Hpos.
  destruct (teleport_sets_goals (reach_target request) (reach_names request) ms Hlen)
    as [Hval Hgoal]; [by auto|].
  destruct (teleport_frame (reach_target request) (reach_names request) ms)
    as (_ & Hframe & Hevs).
  destruct (set_goal_events_not_logs _ Hevs) as (Hlogs & Hgotos & _).
  rewrite Hval. split; [done|]. split.
  { change (?x :: ?y :: ?l) with ([x; y] ++ l). by rewrite !gotos_app, Hgotos. }
  split; [|split].
  - intros motor Hin Hw. apply list_elem_of_lookup in Hw as [i Hi].
    destruct (Hgoal motor i Hin Hi) as (m & Hm & Hg).
    exists i, m. split; [done|]. split; [|done].
    assert (Hn : (Motor.name <$> ms) !! i = Some motor) by by rewrite Hergo.
    rewrite list_lookup_fmap in Hn.
    destruct (ms !! i) as [m0|] eqn:Hm0; [|done].
    destruct (Hframe i m0 Hm0) as [v Hv]. cbn in Hn.
    rewrite Hm in Hv. injection Hv as ->. injection Hn as <-. done.
  - by rewrite <- teleport_ignores_unknown.
  - cbn. by rewrite List.filter_app, Hlogs.
Qed.

Lemma reach_teleport_witness :
  (Motor.goal_position
     <$> motors (_cb_reach dummy_goto_position poppy
                   (ReachTarget.mk (JointState.mk ["m1"; "base"; "m3"] [10%Q; 20%Q; 30%Q] [] [])
                                   (Duration.mk 0 0)) ergo_jr))
  = [10%Q; 0%Q; 30%Q; 0%Q; 0%Q; 0%Q] /\
  value (_cb_reach dummy_goto_position poppy
           (ReachTarget.mk (JointState.mk ["m1"; "base"; "m3"] [10%Q; 20%Q; 30%Q] [] [])
                           (Duration.mk 0 0)) ergo_jr)
  = Return mkReachTargetResponse.
Proof.
  split; [reflexivity|].
  apply (reach_teleport_sets_whitelisted_goals dummy_goto_position poppy
           (ReachTarget.mk (JointState.mk ["m1"; "base"; "m3"] [10%Q; 20%Q; 30%Q] [] [])
                           (Duration.mk 0 0)) ergo_jr).
  - by vm_compute.
  - reflexivity.
  - compute_done.
Defined.

Lemma dict_keys (pairs : list (string * Q)) (key : string) :
  is_Some (dict pairs !! key) -> key ∈ pairs.*1.
Proof.
  unfold dict. induction pairs as [|[k v] pairs IH] using rev_ind.
  - cbn. rewrite lookup_empty. by intros [? ?].
  - rewrite foldl_snoc, fmap_app. cbn. rewrite elem_of_app.
    destruct (decide (k = key)) as [->|Hne].
    + intros _. right. apply list_elem_of_singleton. done.
    + rewrite lookup_insert_ne by done. auto.
Qed.

(** C10: in the teleport branch of [reach], on an Ergo Jr, the moving speed
    of every motor is left as it was, a motor whose name is not a key of the
    request's target dictionary (in particular one whose name is not among
    the request's names) is left exactly as it was, no motor changes in
    anything but its goal position, and the trace has neither a
    [goto_position] call nor a write to a moving speed.  This holds whether
    the handler returns or raises. *)
Theorem reach_teleport_frame
    (goto_position : gmap string Q -> Q -> list Motor.t -> result unit * list Motor.t)
    (self : ErgoJrControllers) (request : ReachTarget.t) (ms : list Motor.t) :
  (reach_duration request <= 0)%Q ->
  is_ergo_jr ms ->
  Motor.moving_speed <$> motors (_cb_reach goto_position self request ms)
    = Motor.moving_speed <$> ms /\
  (forall i m, ms !! i = Some m ->
     Motor.name m ∉ dom (reach_target request) ->
     motors (_cb_reach goto_position self request ms) !! i = Some m) /\
  (forall i m, ms !! i = Some m ->
     Motor.name m ∉ reach_names request ->
     motors (_cb_reach goto_position self request ms) !! i = Some m) /\
  (forall i m, ms !! i = Some m ->
     exists v, motors (_cb_reach goto_position self request ms) !! i
               = Some (Motor.set_goal_position v m)) /\
  length (motors (_cb_reach goto_position self request ms)) = length ms /\
  forallb (fun e => negb (is_goto e) && negb (is_set_moving_speed e))
          (trace (_cb_reach goto_position self request ms)) = true.
Proof.
  intros Hd Hergo.
  destruct (cb_reach_teleport goto_position self request ms Hd) as (_ & Hm & Ht).
  rewrite Hm, Ht. clear Hm Ht.
  destruct (teleport_frame (reach_target request) (reach_names request) ms)
    as (Hlen & Hframe & Hevs).
  destruct (set_goal_events_not_logs _ Hevs) as (_ & _ & Hquiet).
  assert (Huntouched : forall i m, ms !! i = Some m ->
            Motor.name m ∉ dom (reach_target request) ->
            motors (teleport (reach_target request) (reach_names request) ms) !! i
            = Some m).
  { intros i m Hi Hname. rewrite <- Hi. apply teleport_untouched.
    intros motor Hw _.
    assert (Hn : (Motor.name <$> ms) !! i = Some motor) by by rewrite Hergo.
    rewrite list_lookup_fmap, Hi in Hn. injection Hn as <-.
    by apply not_elem_of_dom. }
  split; [|split; [done|split; [|split; [done|split; [done|]]]]].
  - apply list_eq. intros i. rewrite !list_lookup_fmap.
    destruct (ms !! i) as [m|] eqn:Hi.
    + destruct (Hframe i m Hi) as [v ->]. done.
    + apply lookup_ge_None in Hi. rewrite <- Hlen in Hi.
      apply lookup_ge_None in Hi. by rewrite Hi.
  - intros i m Hi Hname. apply Huntouched; [done|].
    intros Hdom. apply Hname. apply elem_of_dom, dict_keys in Hdom.
    apply list_elem_of_fmap in Hdom as ([k v] & -> & Hkv).
    by apply elem_of_zip_l in Hkv.
  - cbn. rewrite forallb_app, Hquiet. done.
Qed.

Lemma reach_teleport_frame_witness :
  Motor.moving_speed
    <$> motors (_cb_reach dummy_goto_position poppy
                  (ReachTarget.mk (JointState.mk ["m2"; "m5"; "tip"] [15%Q; -15%Q] [] [])
                                  (Duration.mk (-1) 0)) ergo_jr)
  = Motor.moving_speed <$> ergo_jr.
Proof.
  apply (reach_teleport_frame dummy_goto_position poppy
           (ReachTarget.mk (JointState.mk ["m2"; "m5"; "tip"] [15%Q; -15%Q] [] [])
                           (Duration.mk (-1) 0)) ergo_jr).
  - by vm_compute.
  - reflexivity.
Defined.

(** ** The trajectory executor *)

Lemma for_enumerate_app {A St} (body : nat -> A -> St -> M (control St))
    (l1 l2 : list A) (i : nat) (s : St) (ms : list Motor.t) :
  for_enumerate body i (l1 ++ l2) s ms
  = match value (for_enumerate body i l1 s ms) with
    | Return (Next s') =>
        mkOutcome
          (value (for_enumerate body (i + length l1) l2 s'
                    (motors (for_enumerate body i l1 s ms))))
          (motors (for_enumerate body (i + length l1) l2 s'
                     (motors (for_enumerate body i l1 s ms))))
          (trace (for_enumerate body i l1 s ms)
             ++ trace (for_enumerate body (i + length l1) l2 s'
                         (motors (for_enumerate body i l1 s ms))))
    | _ => for_enumerate body i l1 s ms
    end.
Proof.
  revert i s ms. induction l1 as [|x l1 IH]; intros i s ms.
  - cbn. rewrite Nat.add_0_r. symmetry. apply outcome_eta.
  - cbn [app for_enumerate length].
    destruct (value (body i x s ms)) as [[s'|s']|e] eqn:Hb.
    + rewrite !(bind_Return _ _ _ _ Hb). cbn [value motors trace].
      rewrite IH. replace (i + S (length l1)) with (S i + length l1) by lia.
      destruct (value (for_enumerate body (S i) l1 s' _)) as [[s''|s'']|e] eqn:Hv;
        cbn [value motors trace]; by rewrite ?Hv, ?app_assoc.
    + by rewrite !(bind_Return _ _ _ _ Hb).
    + by rewrite !(bind_Raise _ _ _ _ Hb).
Qed.

Section Executor.

Variable goto_position : gmap string Q -> Q -> list Motor.t -> result unit * list Motor.t.
Variable self : ErgoJrControllers.
Variable rt : runtime.
Variable joint_names : list string.
Variable n : nat.

Local Abbreviation body := (execute_point goto_position self rt joint_names n).

(** The ways one iteration can go. *)
Lemma execute_point_shutdown i point time ms :
  shutdown_at rt i = true ->
  body i point time ms = mkOutcome (Return (Break time)) ms [IsShutdown true].
Proof. intros H. unfold execute_point, bind, is_shutdown. cbn. by rewrite H. Qed.

Lemma skip_warning_raises (i : nat) :
  percent_format "Skipping invalid point {}/{} with incoherent time_from_start"
    [Z.of_nat (i + 1); Z.of_nat n] = Raise TypeError.
Proof. reflexivity. Qed.

Lemma execute_point_skip i point time ms :
  shutdown_at rt i = false ->
  (time_from_start point < time)%Q ->
  body i point time ms = mkOutcome (Raise TypeError) ms [IsShutdown false].
Proof.
  intros H Hlt. unfold execute_point, bind, is_shutdown. cbn. rewrite H.
  fold (time_from_start point).
  assert (ltb0 (time_from_start point - time) = true) as ->; [|done].
  apply ltb0_true. lra.
Qed.

Lemma execute_point_KeyError i point time ms :
  shutdown_at rt i = false ->
  (time <= time_from_start point)%Q ->
  params self !! "time_margin" = None ->
  body i point time ms
  = mkOutcome (Raise (KeyError "time_margin")) ms [IsShutdown false].
Proof.
  intros H Hle Hp. unfold execute_point, bind, is_shutdown. cbn. rewrite H.
  fold (time_from_start point).
  assert (ltb0 (time_from_start point - time) = false) as ->.
  { apply ltb0_false. lra. }
  unfold lift, getitem. by rewrite Hp.
Qed.

Lemma execute_point_goto i point time ms time_margin :
  shutdown_at rt i = false ->
  (time <= time_from_start point)%Q ->
  params self !! "time_margin" = Some time_margin ->
  (goto_position (waypoint_target joint_names point)
     (time_margin + (time_from_start point - time))%Q ms).1 = Return tt ->
  body i point time ms
  = mkOutcome
      (if interrupted_at rt i then Raise ROSInterruptException
       else Return (Next (time_from_start point)))
      (goto_position (waypoint_target joint_names point)
         (time_margin + (time_from_start point - time))%Q ms).2
      [IsShutdown false;
       GotoPosition (waypoint_target joint_names point)
         (time_margin + (time_from_start point - time))%Q;
       Sleep (time_from_start point - time - 0.001)%Q (interrupted_at rt i)].
Proof.
  intros H Hle Hp Hgoto. unfold execute_point, bind, is_shutdown. cbn. rewrite H.
  fold (time_from_start point).
  assert (ltb0 (time_from_start point - time) = false) as ->.
  { apply ltb0_false. lra. }
  unfold lift, getitem. rewrite Hp. cbn.
  unfold waypoint_target in Hgoto. rewrite Hgoto. cbn.
  unfold sleep. by destruct (interrupted_at rt i).
Qed.

Lemma execute_point_goto_raises i point time ms time_margin e :
  shutdown_at rt i = false ->
  (time <= time_from_start point)%Q ->
  params self !! "time_margin" = Some time_margin ->
  (goto_position (waypoint_target joint_names point)
     (time_margin + (time_from_start point - time))%Q ms).1 = Raise e ->
  body i point time ms
  = mkOutcome (Raise e)
      (goto_position (waypoint_target joint_names point)
         (time_margin + (time_from_start point - time))%Q ms).2
      [IsShutdown false;
       GotoPosition (waypoint_target joint_names point)
         (time_margin + (time_from_start point - time))%Q].
Proof.
  intros H Hle Hp Hgoto. unfold execute_point, bind, is_shutdown. cbn. rewrite H.
  fold (time_from_start point).
  assert (ltb0 (time_from_start point - time) = false) as ->.
  { apply ltb0_false. lra. }
  unfold lift, getitem. rewrite Hp. cbn.
  unfold waypoint_target in Hgoto. by rewrite Hgoto.
Qed.

End Executor.

(** *** One waypoint *)

(** C3, at an input where it fails: a trajectory that names a joint the
    robot does not have.  The first duration is not negative, yet after the
    first [goto_position], which raises, nothing is slept, the second
    waypoint is never handled and the exception leaves [execute]. *)
Lemma execute_unknown_joint_no_sleep :
  (0 <= time_from_start (waypoint 0 []) - 0)%Q /\
  trace (execute dummy_goto_position poppy quiet astray ergo_jr)
  = [Acquire;
     Log INFO (ExecutingTrajectory 2);
     IsShutdown false;
     GotoPosition (waypoint_target ["m1"; "elbow"] (waypoint 0 [10%Q; 20%Q]))
       (0.5 + (time_from_start (waypoint 0 []) - 0))%Q;
     Release] /\
  waits (trace (execute dummy_goto_position poppy quiet astray ergo_jr)) = [] /\
  value (execute dummy_goto_position poppy quiet astray ergo_jr) = Raise AttributeError.
Proof. vm_compute. repeat split; try reflexivity. discriminate. Qed.

(** C3, amended: when the loop of [execute] reaches a waypoint with elapsed
    time [time], no shutdown is seen and the computed duration
    [time_from_start - time] is not negative, the executor calls
    [goto_position] with the dictionary of the waypoint's joint names and
    positions and with the duration plus the configured time margin.  When
    that call returns, it then sleeps for the duration minus 0.001 (the
    margin is not part of the wait), and the next waypoint is handled only
    after that sleep, with the motors as [goto_position] left them.  When
    that call raises, the call is the last event of the loop: nothing is
    slept and no further waypoint is handled. *)
Theorem execute_waypoint_goto_then_sleep
    (goto_position : gmap string Q -> Q -> list Motor.t -> result unit * list Motor.t)
    (self : ErgoJrControllers) (rt : runtime) (trajectory : JointTrajectory.t)
    (pre post : list JointTrajectoryPoint.t) (point : JointTrajectoryPoint.t)
    (ms : list Motor.t) (time time_margin : Q) :
  JointTrajectory.points trajectory = pre ++ point :: post ->
  value (execute_from goto_position self rt trajectory 0 0 pre ms) = Return (Next time) ->
  shutdown_at rt (length pre) = false ->
  (0 <= time_from_start point - time)%Q ->
  params self !! "time_margin" = Some time_margin ->
  trace (execute_loop goto_position self rt trajectory ms)
  = trace (execute_from goto_position self rt trajectory 0 0 pre ms)
    ++ [IsShutdown false;
        GotoPosition (waypoint_target (JointTrajectory.joint_names trajectory) point)
          (time_margin + (time_from_start point - time))%Q]
    ++ match (goto_position
                (waypoint_target (JointTrajectory.joint_names trajectory) point)
                (time_margin + (time_from_start point - time))%Q
                (motors (execute_from goto_position self rt trajectory 0 0 pre ms))).1
       with
       | Raise _ => []
       | Return _ =>
           Sleep (time_from_start point - time - 0.001)%Q (interrupted_at rt (length pre))
           :: (if interrupted_at rt (length pre) then []
               else
                 trace (execute_from goto_position self rt trajectory
                          (S (length pre)) (time_from_start point) post
                          (goto_position
                             (waypoint_target (JointTrajectory.joint_names trajectory) point)
                             (time_margin + (time_from_start point - time))%Q
                             (motors (execute_from goto_position self rt trajectory
                                        0 0 pre ms))).2))
       end.
Proof.
  intros Hpts Hpre Hshut Hdur Hmargin.
  unfold execute_loop, execute_from in *. rewrite Hpts at 2.
  rewrite for_enumerate_app, Hpre.
  cbn [value motors trace Nat.add for_enumerate]. f_equal.
  assert (Hle : (time <= time_from_start point)%Q) by lra.
  set (ms1 := motors _) in *.
  destruct (goto_position (waypoint_target (JointTrajectory.joint_names trajectory) point)
              (time_margin + (time_from_start point - time))%Q ms1).1
    as [[]|err] eqn:Hgoto.
  2:{ pose proof (execute_point_goto_raises goto_position self rt
                    (JointTrajectory.joint_names trajectory)
                    (length (JointTrajectory.points trajectory))
                    (length pre) point time ms1 time_margin err Hshut Hle Hmargin Hgoto)
        as Hstep.
      rewrite (bind_Raise _ _ _ err); by rewrite Hstep. }
  pose proof (execute_point_goto goto_position self rt
                (JointTrajectory.joint_names trajectory)
                (length (JointTrajectory.points trajectory))
                (length pre) point time ms1 time_margin Hshut Hle Hmargin Hgoto) as Hstep.
  destruct (interrupted_at rt (length pre)) eqn:Hint.
  - rewrite (bind_Raise _ _ _ ROSInterruptException); by rewrite Hstep.
  - rewrite (bind_Return _ _ _ (Next (time_from_start point))); by rewrite Hstep.
Qed.

Lemma execute_waypoint_goto_then_sleep_witness :
  trace (execute_loop dummy_goto_position poppy quiet zigzag ergo_jr)
  = [IsShutdown false;
     GotoPosition {[ "m1" := 10%Q; "m2" := 20%Q ]} (0.5 + (time_from_start (waypoint 1 []) - 0))%Q;
     Sleep (time_from_start (waypoint 1 []) - 0 - 0.001)%Q false;
     IsShutdown false;
     GotoPosition {[ "m1" := 30%Q; "m2" := 40%Q ]}
       (0.5 + (time_from_start (waypoint 3 []) - time_from_start (waypoint 1 [])))%Q;
     Sleep (time_from_start (waypoint 3 []) - time_from_start (waypoint 1 []) - 0.001)%Q false;
     IsShutdown false].
Proof.
  rewrite (execute_waypoint_goto_then_sleep dummy_goto_position poppy quiet zigzag
             [waypoint 1 [10%Q; 20%Q]] [waypoint 2 [0%Q; 0%Q]] (waypoint 3 [30%Q; 40%Q])
             ergo_jr (time_from_start (waypoint 1 [])) 0.5%Q).
  - reflexivity.
  - reflexivity.
  - reflexivity.
  - reflexivity.
  - by vm_compute.
  - reflexivity.
Defined.

(** C2: a waypoint out of chronological order is not skipped with a
    warning.  On the trajectory [detour] (waypoints at 1 s, 3 s, 2 s and
    4 s) the third waypoint has the negative duration 2 - 3; its warning is
    handed to the logger with arguments its text has no place for, the
    formatting raises [TypeError], no warning is logged, the fourth waypoint
    is never handled and the exception leaves [execute]. *)
Theorem execute_late_waypoint_raises :
  ltb0 (time_from_start (waypoint 2 []) - time_from_start (waypoint 3 [])) = true /\
  percent_format "Skipping invalid point {}/{} with incoherent time_from_start"
    [3%Z; 4%Z] = Raise TypeError /\
  value (execute dummy_goto_position poppy quiet detour ergo_jr) = Raise TypeError /\
  trace (execute dummy_goto_position poppy quiet detour ergo_jr)
  = [Acquire;
     Log INFO (ExecutingTrajectory 4);
     IsShutdown false;
     GotoPosition {[ "m1" := 10%Q; "m2" := 20%Q ]} (0.5 + (time_from_start (waypoint 1 []) - 0))%Q;
     Sleep (time_from_start (waypoint 1 []) - 0 - 0.001)%Q false;
     IsShutdown false;
     GotoPosition {[ "m1" := 30%Q; "m2" := 40%Q ]}
       (0.5 + (time_from_start (waypoint 3 []) - time_from_start (waypoint 1 [])))%Q;
     Sleep (time_from_start (waypoint 3 []) - time_from_start (waypoint 1 []) - 0.001)%Q false;
     IsShutdown false;
     Release].
Proof. repeat split; reflexivity. Qed.

(** *** Chronological trajectories *)

Lemma increasing_chronological (prev : Q) (l : list Q) :
  increasing_after prev l -> chronological prev l.
Proof.
  revert prev. induction l as [|x r IH]; intros prev; [done|].
  intros [Hlt Hr]. split; [by apply Qlt_le_weak|by apply IH].
Qed.

Lemma strictly_increasing_chronological (l : list Q) :
  strictly_increasing l ->
  (forall t, head l = Some t -> (0 <= t)%Q) ->
  chronological 0 l.
Proof.
  destruct l as [|x r]; [done|]. cbn. intros Hr H0.
  split; [by apply H0|by apply increasing_chronological].
Qed.

Lemma chronological_take (time : Q) (l : list Q) (k : nat) :
  chronological time l -> chronological time (take k l).
Proof.
  revert time k. induction l as [|x r IH]; intros time [|k]; try done.
  intros [Hle Hr]. split; [done|by apply IH].
Qed.

Lemma goto_returns_take
    (goto_position : gmap string Q -> Q -> list Motor.t -> result unit * list Motor.t)
    (time_margin : Q) (joint_names : list string) (time : Q)
    (points : list JointTrajectoryPoint.t) (ms : list Motor.t) (k : nat) :
  goto_returns goto_position time_margin joint_names time points ms ->
  goto_returns goto_position time_margin joint_names time (take k points) ms.
Proof.
  revert time ms k. induction points as [|point rest IH]; intros time ms [|k]; try done.
  intros [Hgoto Hrest]. split; [done|by apply IH].
Qed.

Lemma waits_app (tr1 tr2 : list event) : waits (tr1 ++ tr2) = waits tr1 ++ waits tr2.
Proof.
  induction tr1 as [|e tr1 IH]; [done|]. destruct e; cbn; by rewrite ?IH.
Qed.

Lemma execute_from_chronological
    (goto_position : gmap string Q -> Q -> list Motor.t -> result unit * list Motor.t)
    (self : ErgoJrControllers) (rt : runtime) (trajectory : JointTrajectory.t)
    (time_margin : Q) (points : list JointTrajectoryPoint.t)
    (i : nat) (time : Q) (ms : list Motor.t) :
  params self !! "time_margin" = Some time_margin ->
  chronological time (times points) ->
  (forall k, (i <= k < i + length points)%nat ->
     shutdown_at rt k = false /\ interrupted_at rt k = false) ->
  goto_returns goto_position time_margin (JointTrajectory.joint_names trajectory)
    time points ms ->
  value (execute_from goto_position self rt trajectory i time points ms)
    = Return (Next (foldl (fun _ point => time_from_start point) time points)) /\
  gotos (trace (execute_from goto_position self rt trajectory i time points ms))
    = expected_gotos time_margin (JointTrajectory.joint_names trajectory) time points /\
  (Qsum (waits (trace (execute_from goto_position self rt trajectory i time points ms)))
     + inject_Z (Z.of_nat (length points)) * 0.001
   == foldl (fun _ point => time_from_start point) time points - time)%Q.
Proof.
  intros Hmargin. revert i time ms.
  induction points as [|point rest IH]; intros i time ms Hchron Hquiet Hsdk.
  { cbn. repeat split; try done. change (inject_Z (Z.of_nat 0)) with 0%Q. lra. }
  destruct Hchron as [Hle Hchron]. destruct Hsdk as [Hgoto Hsdk].
  destruct (Hquiet i) as [Hshut Hint]; [cbn; lia|].
  pose proof (execute_point_goto goto_position self rt
                (JointTrajectory.joint_names trajectory)
                (length (JointTrajectory.points trajectory))
                i point time ms time_margin Hshut Hle Hmargin Hgoto) as Hstep.
  rewrite Hint in Hstep.
  unfold execute_from in *. cbn [for_enumerate].
  rewrite (bind_Return _ _ _ (Next (time_from_start point))) by by rewrite Hstep.
  rewrite Hstep. cbn [value motors trace foldl length].
  destruct (IH (S i) (time_from_start point)
              (goto_position (waypoint_target (JointTrajectory.joint_names trajectory) point)
                 (time_margin + (time_from_start point - time))%Q ms).2 Hchron)
    as (Hv & Hg & Hw).
  { intros k Hk. apply Hquiet. cbn. lia. }
  { exact Hsdk. }
  split; [done|]. split.
  - change (?a :: ?b :: ?c :: ?l) with ([a] ++ [b] ++ [c] ++ l).
    rewrite !gotos_app, Hg. done.
  - cbn [app waits Qsum].
    rewrite Nat2Z.inj_succ, <- Z.add_1_r, inject_Z_plus.
    change (inject_Z 1) with 1%Q.
    lra.
Qed.

Lemma execute_outcome
    (goto_position : gmap string Q -> Q -> list Motor.t -> result unit * list Motor.t)
    (self : ErgoJrControllers) (rt : runtime) (trajectory : JointTrajectory.t)
    (ms : list Motor.t) :
  execute goto_position self rt trajectory ms
  = mkOutcome
      (after_try (value (execute_loop goto_position self rt trajectory ms)))
      (motors (execute_loop goto_position self rt trajectory ms))
      (Acquire
         :: Log INFO (ExecutingTrajectory (length (JointTrajectory.points trajectory)))
         :: trace (execute_loop goto_position self rt trajectory ms)
         ++ closing_log (value (execute_loop goto_position self rt trajectory ms))
         ++ [Release]).
Proof.
  unfold execute, with_lock, loginfo, logwarn. rewrite bind_emit.
  unfold try_except_interrupt, emit. cbn [value motors trace].
  destruct (value (execute_loop goto_position self rt trajectory ms)) as [c|e];
    [|destruct e]; cbn [value motors trace after_try closing_log app];
    by rewrite <- ?app_assoc.
Qed.

(** C1, at an input where it fails: two waypoints at -2 s and -1 s have
    strictly increasing times, yet the executor issues no [goto_position]:
    the first waypoint has a negative duration and its warning raises
    [TypeError], which leaves [execute]. *)
Lemma execute_negative_times_raise :
  strictly_increasing
    (times [waypoint (-2) [10%Q; 20%Q]; waypoint (-1) [30%Q; 40%Q]]) /\
  gotos (trace (execute dummy_goto_position poppy quiet
                  (JointTrajectory.mk ["m1"; "m2"]
                     [waypoint (-2) [10%Q; 20%Q]; waypoint (-1) [30%Q; 40%Q]])
                  ergo_jr)) = [] /\
  value (execute dummy_goto_position poppy quiet
           (JointTrajectory.mk ["m1"; "m2"]
              [waypoint (-2) [10%Q; 20%Q]; waypoint (-1) [30%Q; 40%Q]])
           ergo_jr) = Raise TypeError.
Proof. split; [by vm_compute|]. split; reflexivity. Qed.

Lemma foldl_last_time (time : Q) (points : list JointTrajectoryPoint.t) :
  foldl (fun _ point => time_from_start point) time points
  = default time (last (times points)).
Proof.
  induction points as [|point points IH] using rev_ind; [done|].
  unfold times. rewrite foldl_snoc, fmap_app.
  change (time_from_start <$> [point]) with [time_from_start point].
  by rewrite last_snoc.
Qed.

(** C1, amended: for a trajectory whose waypoints have strictly increasing
    [time_from_start] values, the first of them not negative, with the time
    margin configured, no shutdown seen and every [goto_position] call
    returning, [execute] returns normally and issues exactly one
    [goto_position] per waypoint, in input order; after the waypoint at any
    position the elapsed time is that waypoint's [time_from_start]; and the
    sum of the durations handed to [rospy.sleep] is the last waypoint's
    [time_from_start] less 0.001 per waypoint. *)
Theorem execute_chronological_trajectory
    (goto_position : gmap string Q -> Q -> list Motor.t -> result unit * list Motor.t)
    (self : ErgoJrControllers) (rt : runtime) (trajectory : JointTrajectory.t)
    (ms : list Motor.t) (time_margin : Q) :
  strictly_increasing (times (JointTrajectory.points trajectory)) ->
  (forall t, head (times (JointTrajectory.points trajectory)) = Some t -> (0 <= t)%Q) ->
  params self !! "time_margin" = Some time_margin ->
  quiet_for (length (JointTrajectory.points trajectory)) rt ->
  goto_returns goto_position time_margin (JointTrajectory.joint_names trajectory) 0
    (JointTrajectory.points trajectory) ms ->
  value (execute goto_position self rt trajectory ms) = Return tt /\
  gotos (trace (execute goto_position self rt trajectory ms))
    = expected_gotos time_margin (JointTrajectory.joint_names trajectory) 0
        (JointTrajectory.points trajectory) /\
  (forall k point,
     JointTrajectory.points trajectory !! k = Some point ->
     value (execute_from goto_position self rt trajectory 0 0
              (take (S k) (JointTrajectory.points trajectory)) ms)
     = Return (Next (time_from_start point))) /\
  (Qsum (waits (trace (execute goto_position self rt trajectory ms)))
     + inject_Z (Z.of_nat (length (JointTrajectory.points trajectory))) * 0.001
   == default 0 (last (times (JointTrajectory.points trajectory))))%Q.
Proof.
  intros Hinc Hfirst Hmargin Hquiet Hsdk.
  pose proof (strictly_increasing_chronological _ Hinc Hfirst) as Hchron.
  destruct (execute_from_chronological goto_position self rt trajectory time_margin
              (JointTrajectory.points trajectory) 0 0 ms Hmargin Hchron)
    as (Hv & Hg & Hw); [intros k Hk; apply Hquiet; lia|done|].
  change (execute_from goto_position self rt trajectory 0 0
            (JointTrajectory.points trajectory) ms)
    with (execute_loop goto_position self rt trajectory ms) in Hv, Hg, Hw.
  rewrite execute_outcome, Hv. cbn [value trace after_try closing_log].
  split; [done|]. split; [|split].
  - change (?a :: ?b :: ?l) with ([a; b] ++ l). rewrite !gotos_app, Hg.
    cbn. by rewrite app_nil_r.
  - intros k point Hk.
    destruct (execute_from_chronological goto_position self rt trajectory time_margin
                (take (S k) (JointTrajectory.points trajectory)) 0 0 ms Hmargin)
      as (Hvk & _ & _).
    + unfold times. rewrite fmap_take. by apply chronological_take.
    + intros j Hj. apply Hquiet. rewrite length_take in Hj. lia.
    + by apply goto_returns_take.
    + rewrite Hvk. by rewrite (take_S_r _ _ _ Hk), foldl_snoc.
  - change (?a :: ?b :: ?l) with ([a; b] ++ l). rewrite !waits_app.
    cbn [waits app]. rewrite app_nil_r.
    rewrite foldl_last_time in Hw. lra.
Qed.

Lemma execute_chronological_trajectory_witness :
  gotos (trace (execute dummy_goto_position poppy quiet sweep ergo_jr))
  = [GotoPosition {[ "m1" := 10%Q; "m2" := 20%Q ]}
       (0.5 + (time_from_start (waypoint 0 []) - 0))%Q;
     GotoPosition {[ "m1" := 30%Q; "m2" := 40%Q ]}
       (0.5 + (time_from_start (waypoint 2 []) - time_from_start (waypoint 0 [])))%Q] /\
  (Qsum (waits (trace (execute dummy_goto_position poppy quiet sweep ergo_jr)))
     + 2 * 0.001 == time_from_start (waypoint 2 []))%Q.
Proof.
  destruct (execute_chronological_trajectory dummy_goto_position poppy quiet sweep
              ergo_jr 0.5%Q) as (_ & Hg & _ & Hw).
  - cbn. split; [reflexivity|exact I].
  - intros t [= <-]. by vm_compute.
  - reflexivity.
  - intros k Hk. split; reflexivity.
  - repeat split; vm_compute; reflexivity.
  - split; [exact Hg|exact Hw].
Defined.

(** *** Shutdown *)

Lemma strip_quiet_prefix (l rest before after : list event) (e : event) :
  before ++ e :: after = l ++ rest ->
  stop_signal e = true ->
  forallb (fun x => negb (stop_signal x)) l = true ->
  exists before', before = l ++ before' /\ before' ++ e :: after = rest.
Proof.
  intros Heq He. revert before Heq.
  induction l as [|x l IH]; intros before Heq Hl; [by exists before|].
  cbn in Hl. apply andb_true_iff in Hl as [Hx Hl].
  destruct before as [|b before]; cbn in Heq.
  - injection Heq as -> _. by rewrite He in Hx.
  - injection Heq as -> Heq. destruct (IH before Heq Hl) as (before' & -> & Hrest).
    by exists before'.
Qed.

Lemma split_at_signal (l rest before after : list event) (e : event) :
  before ++ e :: after = l ++ rest ->
  stop_signal e = true ->
  forallb (fun x => negb (stop_signal x)) rest = true ->
  exists after', l = before ++ e :: after' /\ after = after' ++ rest.
Proof.
  intros Heq He Hrest. revert before Heq.
  induction l as [|x l IH]; intros before Heq.
  - cbn in Heq. subst rest. rewrite forallb_app in Hrest. cbn in Hrest.
    rewrite He in Hrest. cbn in Hrest. by rewrite andb_false_r in Hrest.
  - destruct before as [|b before]; cbn in Heq.
    + injection Heq as -> ->. by exists l.
    + injection Heq as -> Heq. destruct (IH before Heq) as (after' & -> & ->).
      by exists after'.
Qed.

(** In the loop, the shutdown signal is the last event, and it decides how
    the loop ends. *)
Lemma execute_from_signal
    (goto_position : gmap string Q -> Q -> list Motor.t -> result unit * list Motor.t)
    (self : ErgoJrControllers) (rt : runtime) (trajectory : JointTrajectory.t)
    (points : list JointTrajectoryPoint.t) (i : nat) (time : Q) (ms : list Motor.t)
    (before after : list event) (e : event) :
  trace (execute_from goto_position self rt trajectory i time points ms)
    = before ++ e :: after ->
  stop_signal e = true ->
  after = [] /\
  closing_log (value (execute_from goto_position self rt trajectory i time points ms))
  = match e with
    | Sleep _ _ => [Log WARN TrajectoryAborted]
    | _ => [Log INFO TrajectoryEnded]
    end.
Proof.
  intros Htr He. revert i time ms before Htr.
  induction points as [|point rest IH]; intros i time ms before Htr.
  { by destruct before. }
  unfold execute_from in *. cbn [for_enumerate] in *.
  destruct (shutdown_at rt i) eqn:Hshut.
  { pose proof (execute_point_shutdown goto_position self rt
                  (JointTrajectory.joint_names trajectory)
                  (length (JointTrajectory.points trajectory)) i point time ms Hshut)
      as Hstep.
    rewrite (bind_Return _ _ _ (Break time)) in Htr |- * by by rewrite Hstep.
    rewrite Hstep in Htr |- *. cbn in Htr |- *.
    destruct before as [|b [|b' before]]; [|done..].
    injection Htr as <- <-. done. }
  destruct (Qlt_le_dec (time_from_start point) time) as [Hlate|Hle].
  { pose proof (execute_point_skip goto_position self rt
                  (JointTrajectory.joint_names trajectory)
                  (length (JointTrajectory.points trajectory)) i point time ms Hshut Hlate)
      as Hstep.
    rewrite (bind_Raise _ _ _ TypeError) in Htr by by rewrite Hstep.
    rewrite Hstep in Htr. cbn in Htr.
    destruct before as [|b [|b' before]]; [|done..].
    injection Htr as <- _. done. }
  destruct (params self !! "time_margin") as [time_margin|] eqn:Hmargin.
  2:{ pose proof (execute_point_KeyError goto_position self rt
                    (JointTrajectory.joint_names trajectory)
                    (length (JointTrajectory.points trajectory)) i point time ms
                    Hshut Hle Hmargin) as Hstep.
      rewrite (bind_Raise _ _ _ (KeyError "time_margin")) in Htr by by rewrite Hstep.
      rewrite Hstep in Htr. cbn in Htr.
      destruct before as [|b [|b' before]]; [|done..].
      injection Htr as <- _. done. }
  destruct (goto_position (waypoint_target (JointTrajectory.joint_names trajectory) point)
              (time_margin + (time_from_start point - time))%Q ms).1
    as [[]|err] eqn:Hgoto.
  2:{ pose proof (execute_point_goto_raises goto_position self rt
                    (JointTrajectory.joint_names trajectory)
                    (length (JointTrajectory.points trajectory)) i point time ms time_margin
                    err Hshut Hle Hmargin Hgoto) as Hstep.
      rewrite (bind_Raise _ _ _ err) in Htr by by rewrite Hstep.
      rewrite Hstep in Htr. cbn in Htr.
      destruct before as [|b1 [|b2 [|b3 before]]]; cbn in Htr; try done.
      - injection Htr as <- _. done.
      - injection Htr as _ <- _. done. }
  pose proof (execute_point_goto goto_position self rt
                (JointTrajectory.joint_names trajectory)
                (length (JointTrajectory.points trajectory)) i point time ms time_margin
                Hshut Hle Hmargin Hgoto) as Hstep.
  destruct (interrupted_at rt i) eqn:Hint.
  - rewrite (bind_Raise _ _ _ ROSInterruptException) in Htr |- * by by rewrite Hstep.
    rewrite Hstep in Htr |- *. cbn [value motors trace] in Htr |- *.
    destruct before as [|b1 [|b2 [|b3 [|b4 before]]]]; cbn in Htr; try done.
    + injection Htr as <- _. done.
    + injection Htr as _ <- _. done.
    + injection Htr as _ _ <- <-. done.
  - rewrite (bind_Return _ _ _ (Next (time_from_start point))) in Htr |- *
      by by rewrite Hstep.
    rewrite Hstep in Htr |- *. cbn [value motors trace] in Htr |- *.
    symmetry in Htr. apply strip_quiet_prefix in Htr as (before' & -> & Htr); [|done..].
    symmetry in Htr. by apply (IH _ _ _ _ Htr).
Qed.

(** C7, at an input where it fails: when the shutdown is seen at a waypoint
    boundary the executor stops, but what it logs is the line of a normal
    end, not an abort. *)
Lemma execute_shutdown_at_boundary_logs_end :
  trace (execute dummy_goto_position poppy (shutdown_from 1) sweep ergo_jr)
  = [Acquire;
     Log INFO (ExecutingTrajectory 2);
     IsShutdown false;
     GotoPosition {[ "m1" := 10%Q; "m2" := 20%Q ]}
       (0.5 + (time_from_start (waypoint 0 []) - 0))%Q;
     Sleep (time_from_start (waypoint 0 []) - 0 - 0.001)%Q false;
     IsShutdown true;
     Log INFO TrajectoryEnded;
     Release].
Proof. reflexivity. Qed.

(** C7, amended: once the executor has seen the shutdown signal, at a
    waypoint boundary or as the interruption of its wait, the rest of its
    trace handles no waypoint and commands no motion, and [execute] returns
    normally; when the signal is the interruption of the wait, all that
    follows is the warning that the trajectory is aborted and the release of
    the lock.  The caller of [_cb_execute] got its acknowledgment whatever
    the run does. *)
Theorem execute_stops_at_shutdown
    (goto_position : gmap string Q -> Q -> list Motor.t -> result unit * list Motor.t)
    (self : ErgoJrControllers) (rt : runtime) (trajectory : JointTrajectory.t)
    (ms : list Motor.t) (before after : list event) (e : event) :
  trace (execute goto_position self rt trajectory ms) = before ++ e :: after ->
  stop_signal e = true ->
  forallb (fun x => negb (waypoint_event x)) after = true /\
  (forall d, e = Sleep d true -> after = [Log WARN TrajectoryAborted; Release]) /\
  value (execute goto_position self rt trajectory ms) = Return tt /\
  fst (_cb_execute goto_position self rt (ExecuteTrajectory.mk trajectory))
    = mkExecuteTrajectoryResponse.
Proof.
  intros Htr He. rewrite execute_outcome in Htr |- *. cbn [value trace] in Htr |- *.
  change (?a :: ?b :: ?l) with ([a; b] ++ l) in Htr. symmetry in Htr.
  apply strip_quiet_prefix in Htr as (before' & -> & Htr); [|done..].
  rewrite app_assoc in Htr.
  assert (Hrel : forallb (fun x => negb (stop_signal x)) [Release] = true) by done.
  destruct (split_at_signal _ _ _ _ _ Htr He Hrel) as (after' & Hloop & ->).
  clear Htr Hrel.
  set (o := execute_loop goto_position self rt trajectory ms) in *.
  assert (Hclosing : forallb (fun x => negb (stop_signal x)) (closing_log (value o)) = true).
  { destruct (value o) as [c|[]]; done. }
  destruct (split_at_signal _ _ _ _ _ (eq_sym Hloop) He Hclosing)
    as (after'' & Hloop' & ->).
  destruct (execute_from_signal goto_position self rt trajectory
              (JointTrajectory.points trajectory) 0 0 ms before' after'' e Hloop' He)
    as [-> Hlog].
  change (execute_from goto_position self rt trajectory 0 0
            (JointTrajectory.points trajectory) ms) with o in Hlog.
  cbn [app]. rewrite Hlog. repeat split.
  - by destruct e.
  - by intros d ->.
  - destruct e; try done; destruct (value o) as [c|[]]; done.
Qed.

Lemma execute_stops_at_shutdown_witness :
  trace (execute dummy_goto_position poppy (interrupted_during 1) sweep ergo_jr)
  = [Acquire;
     Log INFO (ExecutingTrajectory 2);
     IsShutdown false;
     GotoPosition {[ "m1" := 10%Q; "m2" := 20%Q ]}
       (0.5 + (time_from_start (waypoint 0 []) - 0))%Q;
     Sleep (time_from_start (waypoint 0 []) - 0 - 0.001)%Q false;
     IsShutdown false;
     GotoPosition {[ "m1" := 30%Q; "m2" := 40%Q ]}
       (0.5 + (time_from_start (waypoint 2 []) - time_from_start (waypoint 0 [])))%Q;
     Sleep (time_from_start (waypoint 2 []) - time_from_start (waypoint 0 []) - 0.001)%Q true;
     Log WARN TrajectoryAborted;
     Release] /\
  value (execute dummy_goto_position poppy (interrupted_during 1) sweep ergo_jr)
  = Return tt.
Proof.
  split; [reflexivity|].
  apply (execute_stops_at_shutdown dummy_goto_position poppy (interrupted_during 1)
           sweep ergo_jr
           [Acquire;
            Log INFO (ExecutingTrajectory 2);
            IsShutdown false;
            GotoPosition {[ "m1" := 10%Q; "m2" := 20%Q ]}
              (0.5 + (time_from_start (waypoint 0 []) - 0))%Q;
            Sleep (time_from_start (waypoint 0 []) - 0 - 0.001)%Q false;
            IsShutdown false;
            GotoPosition {[ "m1" := 30%Q; "m2" := 40%Q ]}
              (0.5 + (time_from_start (waypoint 2 []) - time_from_start (waypoint 0 [])))%Q]
           [Log WARN TrajectoryAborted; Release]
           (Sleep (time_from_start (waypoint 2 []) - time_from_start (waypoint 0 []) - 0.001)%Q
                  true)).
  - reflexivity.
  - reflexivity.
Defined.

(** ** Startup *)

(** C8, at an input where it fails: without the key [time_margin] in the
    configuration file the node starts and serves; the key is only missed
    when a trajectory is executed, and then by the executing thread. *)
Lemma startup_without_time_margin_serves :
  main (lab {[ "publish_rate" := 10%Q ]})
  = Serving (mkErgoJrControllers {[ "publish_rate" := 10%Q ]} "poppy") ergo_jr /\
  value (execute dummy_goto_position
           (mkErgoJrControllers {[ "publish_rate" := 10%Q ]} "poppy") quiet sweep ergo_jr)
  = Raise (KeyError "time_margin").
Proof. split; reflexivity. Qed.

(** C8, amended: when the configuration file is absent, or lacks the key
    [publish_rate], or one of the ROS parameters [description] and
    [description_file] is absent, or the creation of the robot fails, the
    process exits with a status that is not zero. *)
Theorem startup_failure_exits_nonzero (h : host) :
  config_file h = None \/
  (exists params, config_file h = Some params /\ params !! "publish_rate" = None) \/
  ros_params h !! "description" = None \/
  ros_params h !! "description_file" = None \/
  (exists path, ros_params h !! "description_file" = Some path /\
                forall ms, PoppyErgoJr h path <> Created ms) ->
  exists status, main h = Exited status /\ status <> 0%Z.
Proof.
  unfold main, __init__, getitem.
  intros [->|[(params & -> & ->)|H]]; [by exists 1%Z..|].
  destruct (config_file h) as [params|]; [|by exists 1%Z].
  destruct (params !! "publish_rate") as [publish_rate|]; [|by exists 1%Z].
  unfold Rate. destruct (Qeq_bool publish_rate 0); [by exists 1%Z|].
  unfold run, get_param.
  destruct H as [->|[->|(path & -> & Hfail)]].
  - by exists 255%Z.
  - destruct (ros_params h !! "description"); by exists 255%Z.
  - destruct (ros_params h !! "description") as [config|]; [|by exists 255%Z].
    destruct (PoppyErgoJr h path) as [ms| |] eqn:Hc; cbn.
    + by destruct (Hfail ms).
    + by exists 255%Z.
    + by exists 1%Z.
Qed.

Lemma startup_failure_exits_nonzero_witness :
  exists status,
    main (mkHost (Some ergo_jr_params) {[ "description" := "<robot/>" ]} "poppy"
            (fun _ => Created ergo_jr) (fun ms => ms))
    = Exited status /\ status <> 0%Z.
Proof.
  apply startup_failure_exits_nonzero.
  right. right. right. left. reflexivity.
Defined.

(** ** Threads and the lock *)

Lemma guarded_body (body : list event) :
  forallb (fun e => negb (is_lock_event e)) body = true ->
  guarded true (body ++ [Release]) = true.
Proof.
  induction body as [|e body IH]; [done|]. cbn.
  intros [He Hb]%andb_true_iff.
  destruct e; try done; cbn; rewrite ?orb_true_r; by apply IH.
Qed.

Lemma guarded_section (prologue body : list event) :
  forallb (fun e => negb (is_lock_event e) && negb (touches_robot e)) prologue = true ->
  forallb (fun e => negb (is_lock_event e)) body = true ->
  guarded false (prologue ++ Acquire :: body ++ [Release]) = true.
Proof.
  intros Hp Hb. induction prologue as [|e prologue IH].
  - by apply guarded_body.
  - cbn in Hp. apply andb_true_iff in Hp as [He Hp].
    destruct e; try done; cbn; by apply IH.
Qed.

Lemma lock_free_imap {A} (f : nat -> A -> event) (l : list A) :
  (forall i x, is_lock_event (f i x) = false) ->
  forallb (fun e => negb (is_lock_event e)) (imap f l) = true.
Proof.
  revert f. induction l as [|x l IH]; intros f Hf; [done|].
  cbn. rewrite Hf. apply IH. intros i y. apply Hf.
Qed.

Lemma waypoint_event_lock_free (tr : list event) :
  forallb waypoint_event tr = true ->
  forallb (fun e => negb (is_lock_event e)) tr = true.
Proof.
  induction tr as [|e tr IH]; [done|]. cbn.
  intros [He Htr]%andb_true_iff. rewrite (IH Htr). by destruct e.
Qed.

(** Every event of the loop of [execute] belongs to the handling of a
    waypoint. *)
Lemma execute_from_waypoint_events
    (goto_position : gmap string Q -> Q -> list Motor.t -> result unit * list Motor.t)
    (self : ErgoJrControllers) (rt : runtime) (trajectory : JointTrajectory.t)
    (points : list JointTrajectoryPoint.t) (i : nat) (time : Q) (ms : list Motor.t) :
  forallb waypoint_event
    (trace (execute_from goto_position self rt trajectory i time points ms)) = true.
Proof.
  revert i time ms. induction points as [|point rest IH]; intros i time ms; [done|].
  unfold execute_from in *. cbn [for_enumerate].
  destruct (shutdown_at rt i) eqn:Hshut.
  { pose proof (execute_point_shutdown goto_position self rt
                  (JointTrajectory.joint_names trajectory)
                  (length (JointTrajectory.points trajectory)) i point time ms Hshut)
      as Hstep.
    rewrite (bind_Return _ _ _ (Break time)) by by rewrite Hstep.
    by rewrite Hstep. }
  destruct (Qlt_le_dec (time_from_start point) time) as [Hlate|Hle].
  { pose proof (execute_point_skip goto_position self rt
                  (JointTrajectory.joint_names trajectory)
                  (length (JointTrajectory.points trajectory)) i point time ms Hshut Hlate)
      as Hstep.
    rewrite (bind_Raise _ _ _ TypeError) by by rewrite Hstep.
    by rewrite Hstep. }
  destruct (params self !! "time_margin") as [time_margin|] eqn:Hmargin.
  2:{ pose proof (execute_point_KeyError goto_position self rt
                    (JointTrajectory.joint_names trajectory)
                    (length (JointTrajectory.points trajectory)) i point time ms
                    Hshut Hle Hmargin) as Hstep.
      rewrite (bind_Raise _ _ _ (KeyError "time_margin")) by by rewrite Hstep.
      by rewrite Hstep. }
  destruct (goto_position (waypoint_target (JointTrajectory.joint_names trajectory) point)
              (time_margin + (time_from_start point - time))%Q ms).1
    as [[]|err] eqn:Hgoto.
  2:{ pose proof (execute_point_goto_raises goto_position self rt
                    (JointTrajectory.joint_names trajectory)
                    (length (JointTrajectory.points trajectory)) i point time ms time_margin
                    err Hshut Hle Hmargin Hgoto) as Hstep.
      rewrite (bind_Raise _ _ _ err) by by rewrite Hstep.
      by rewrite Hstep. }
  pose proof (execute_point_goto goto_position self rt
                (JointTrajectory.joint_names trajectory)
                (length (JointTrajectory.points trajectory)) i point time ms time_margin
                Hshut Hle Hmargin Hgoto) as Hstep.
  destruct (interrupted_at rt i) eqn:Hint.
  - rewrite (bind_Raise _ _ _ ROSInterruptException) by by rewrite Hstep.
    by rewrite Hstep.
  - rewrite (bind_Return _ _ _ (Next (time_from_start point))) by by rewrite Hstep.
    rewrite Hstep. cbn [value motors trace]. rewrite forallb_app, IH. done.
Qed.

(** Every handler touches the robot only between taking and releasing the
    lock. *)
Lemma handler_trace_guarded (tr : list event) :
  handler_trace tr -> guarded false tr = true.
Proof.
  intros [goto_position self request ms|goto_position self rt trajectory ms
         |self request ms|end_effector ms].
  - unfold _cb_reach, loginfo.
    set (target := dict _). set (names := JointState.name _).
    destruct (leb0 _) eqn:Hd; rewrite bind_emit; unfold bind, with_lock;
      cbn [value motors trace].
    + destruct (teleport_frame target names ms) as (_ & _ & Hevs).
      assert (Hfree : forallb (fun e => negb (is_lock_event e))
                        (trace (teleport target names ms)) = true).
      { revert Hevs. generalize (trace (teleport target names ms)).
        intros l. induction l as [|e l IHl]; [done|]. cbn.
        intros [He Hl]%andb_true_iff. rewrite (IHl Hl). by destruct e. }
      destruct (value (teleport target names ms)); cbn [value motors trace];
        rewrite ?app_nil_r;
        apply (guarded_section [Log INFO (Teleporting target)]); done.
    + unfold ergo_goto_position, reset_max_speed, for_each_motor.
      cbn [value motors trace].
      destruct (goto_position target _ ms).1 as [[]|err]; cbn [value motors trace];
        rewrite ?app_nil_r.
      * cbn. by apply guarded_body, lock_free_imap.
      * done.
  - rewrite execute_outcome. cbn [trace guarded negb andb touches_robot orb].
    rewrite app_assoc. apply guarded_body.
    rewrite forallb_app. apply andb_true_iff. split.
    + apply waypoint_event_lock_free, execute_from_waypoint_events.
    + by destruct (value _) as [c|[]].
  - cbn. rewrite app_nil_r. by apply guarded_body, lock_free_imap.
  - done.
Qed.

Lemma start_invariant (threads : list (list event)) :
  Forall handler_trace threads -> lock_invariant (start threads).
Proof.
  intros Hthreads. split; [|done]. cbn. intros t tr Ht.
  apply handler_trace_guarded. rewrite Forall_forall in Hthreads.
  apply Hthreads. by eapply list_elem_of_lookup_2.
Qed.

Lemma guarded_tail (holding : bool) (e : event) (rest : list event) :
  is_lock_event e = false ->
  guarded holding (e :: rest) = true -> guarded holding rest = true.
Proof. destruct e; try done; cbn; by intros _ [_ ?]%andb_true_iff. Qed.

Lemma step_invariant (t : nat) (s s' : node) :
  lock_invariant s -> step t s = Some s' -> lock_invariant s'.
Proof.
  intros [Hguard Hdepth]. unfold step.
  destruct (pending s !! t) as [[|e rest]|] eqn:Ht; try done.
  pose proof (Hguard t _ Ht) as Hg.
  assert (Hother : forall (l : rlock) (h : bool),
            guarded h rest = true ->
            bool_decide (owner l = Some t) = h ->
            (forall t2, t2 <> t ->
               bool_decide (owner l = Some t2)
               = bool_decide (owner (robot_lock s) = Some t2)) ->
            forall t2 tr, <[t := rest]> (pending s) !! t2 = Some tr ->
              guarded (bool_decide (owner l = Some t2)) tr = true).
  { intros l h Hrest Hh Hsame t2 tr Htr.
    destruct (decide (t2 = t)) as [->|Hne].
    - rewrite list_lookup_insert_eq in Htr by by eapply lookup_lt_Some.
      injection Htr as <-. by rewrite Hh.
    - rewrite list_lookup_insert_ne in Htr by done.
      rewrite Hsame by done. by apply Hguard. }
  destruct e;
    try (intros [= <-]; split; [|done]; cbn [robot_lock pending];
         apply (Hother _ (bool_decide (owner (robot_lock s) = Some t)));
         [refine (guarded_tail _ _ _ _ Hg); reflexivity|done|done]).
  - (* Acquire *)
    cbn in Hg. apply andb_true_iff in Hg as [Hfree Hrest].
    apply negb_true_iff, bool_decide_eq_false in Hfree.
    unfold acquire. destruct (owner (robot_lock s)) as [t'|] eqn:Ho.
    + destruct (decide (t = t')) as [->|Hne]; [done|]. done.
    + intros [= <-]. split; [|done]. cbn [robot_lock pending].
      apply (Hother _ true); [done|by apply bool_decide_eq_true| ].
      intros t2 Hne. cbn. rewrite !bool_decide_eq_false_2; [done|done|congruence].
  - (* Release *)
    cbn in Hg. apply andb_true_iff in Hg as [Hheld Hrest].
    apply bool_decide_eq_true in Hheld.
    unfold release. rewrite Hheld in Hdepth |- *. rewrite decide_True by done.
    rewrite Hdepth. intros [= <-]. split; [|done]. cbn [robot_lock pending].
    apply (Hother _ false); [done|by apply bool_decide_eq_false| ].
    intros t2 Hne. cbn. rewrite !bool_decide_eq_false_2; [done|congruence|done].
Qed.

Lemma interleave_invariant (schedule : list nat) (s s' : node) :
  lock_invariant s -> interleave schedule s = Some s' -> lock_invariant s'.
Proof.
  revert s. induction schedule as [|t schedule IH]; intros s Hs; cbn.
  - by intros [= <-].
  - destruct (step t s) as [s1|] eqn:Hstep; [|done].
    apply IH. by eapply step_invariant.
Qed.

(** C9: however the threads of the node (service calls of [reach] and
    [set_compliant], [execute] threads, turns of the publishing loop) are
    interleaved, a thread whose next event touches the robot holds
    [robot_lock]; while a thread holds the lock, another thread that is to
    acquire it cannot take its turn; and an event that is not on the lock,
    such as those of the publisher, is never held up. *)
Theorem robot_lock_excludes
    (threads : list (list event)) (schedule : list nat) (s : node) :
  Forall handler_trace threads ->
  interleave schedule (start threads) = Some s ->
  (forall t e rest,
     pending s !! t = Some (e :: rest) -> touches_robot e = true ->
     owner (robot_lock s) = Some t) /\
  (forall t t' rest,
     owner (robot_lock s) = Some t -> t' <> t ->
     pending s !! t' = Some (Acquire :: rest) ->
     step t' s = None) /\
  (forall t e rest,
     pending s !! t = Some (e :: rest) -> is_lock_event e = false ->
     is_Some (step t s)).
Proof.
  intros Hthreads Hrun.
  pose proof (interleave_invariant _ _ _ (start_invariant _ Hthreads) Hrun)
    as [Hguard Hdepth].
  split; [|split].
  - intros t e rest Ht He. pose proof (Hguard t _ Ht) as Hg.
    destruct e; try done; cbn in Hg;
      apply andb_true_iff in Hg as [Hheld _]; by apply bool_decide_eq_true in Hheld.
  - intros t t' rest Ho Hne Ht'. unfold step, acquire. rewrite Ht', Ho.
    rewrite decide_False by done. done.
  - intros t e rest Ht He. unfold step. rewrite Ht. by destruct e.
Qed.

Lemma robot_lock_excludes_witness :
  exists s,
    interleave [0; 0; 0]%nat
      (start [trace (execute dummy_goto_position poppy quiet sweep ergo_jr);
              trace (execute dummy_goto_position poppy quiet zigzag ergo_jr)])
    = Some s /\
    owner (robot_lock s) = Some 0%nat /\
    step 1 s = None.
Proof.
  eexists. split; [reflexivity|]. split; [reflexivity|].
  eapply (robot_lock_excludes
            [trace (execute dummy_goto_position poppy quiet sweep ergo_jr);
             trace (execute dummy_goto_position poppy quiet zigzag ergo_jr)]
            [0; 0; 0]%nat).
  - repeat constructor.
  - reflexivity.
  - reflexivity.
  - discriminate.
  - reflexivity.
Defined.

(** * Further properties *)

(** ** The trajectory executor, case by case *)

Section ExecutorCases.

Variable goto_position : gmap string Q -> Q -> list Motor.t -> result unit * list Motor.t.
Variable self : ErgoJrControllers.
Variable rt : runtime.
Variable trajectory : JointTrajectory.t.

Local Abbreviation loop := (execute_from goto_position self rt trajectory).
Local Abbreviation names := (JointTrajectory.joint_names trajectory).
Local Abbreviation total := (length (JointTrajectory.points trajectory)).

(** Induction on the run of the loop: the end of the list, a shutdown seen
    at the boundary, a late waypoint, a missing time margin, a
    [goto_position] that raises, an interrupted wait, and a waypoint that is
    commanded and waited for. *)
Lemma execute_from_run_ind
    (P : nat -> Q -> list Motor.t -> list JointTrajectoryPoint.t ->
         outcome (control Q) -> Prop) :
  (forall i time ms, P i time ms [] (mkOutcome (Return (Next time)) ms [])) ->
  (forall i time ms point rest,
     shutdown_at rt i = true ->
     P i time ms (point :: rest) (mkOutcome (Return (Break time)) ms [IsShutdown true])) ->
  (forall i time ms point rest,
     shutdown_at rt i = false ->
     (time_from_start point < time)%Q ->
     P i time ms (point :: rest) (mkOutcome (Raise TypeError) ms [IsShutdown false])) ->
  (forall i time ms point rest,
     shutdown_at rt i = false ->
     (time <= time_from_start point)%Q ->
     params self !! "time_margin" = None ->
     P i time ms (point :: rest)
       (mkOutcome (Raise (KeyError "time_margin")) ms [IsShutdown false])) ->
  (forall i time ms point rest time_margin e,
     shutdown_at rt i = false ->
     (time <= time_from_start point)%Q ->
     params self !! "time_margin" = Some time_margin ->
     (goto_position (waypoint_target names point)
        (time_margin + (time_from_start point - time))%Q ms).1 = Raise e ->
     P i time ms (point :: rest)
       (mkOutcome (Raise e)
          (goto_position (waypoint_target names point)
             (time_margin + (time_from_start point - time))%Q ms).2
          [IsShutdown false;
           GotoPosition (waypoint_target names point)
             (time_margin + (time_from_start point - time))%Q])) ->
  (forall i time ms point rest time_margin,
     shutdown_at rt i = false ->
     (time <= time_from_start point)%Q ->
     params self !! "time_margin" = Some time_margin ->
     (goto_position (waypoint_target names point)
        (time_margin + (time_from_start point - time))%Q ms).1 = Return tt ->
     interrupted_at rt i = true ->
     P i time ms (point :: rest)
       (mkOutcome (Raise ROSInterruptException)
          (goto_position (waypoint_target names point)
             (time_margin + (time_from_start point - time))%Q ms).2
          [IsShutdown false;
           GotoPosition (waypoint_target names point)
             (time_margin + (time_from_start point - time))%Q;
           Sleep (time_from_start point - time - 0.001)%Q true])) ->
  (forall i time ms point rest time_margin,
     shutdown_at rt i = false ->
     (time <= time_from_start point)%Q ->
     params self !! "time_margin" = Some time_margin ->
     (goto_position (waypoint_target names point)
        (time_margin + (time_from_start point - time))%Q ms).1 = Return tt ->
     interrupted_at rt i = false ->
     P (S i) (time_from_start point)
       (goto_position (waypoint_target names point)
          (time_margin + (time_from_start point - time))%Q ms).2
       rest
       (loop (S i) (time_from_start point) rest
          (goto_position (waypoint_target names point)
             (time_margin + (time_from_start point - time))%Q ms).2) ->
     P i time ms (point :: rest)
       (mkOutcome
          (value (loop (S i) (time_from_start point) rest
                    (goto_position (waypoint_target names point)
                       (time_margin + (time_from_start point - time))%Q ms).2))
          (motors (loop (S i) (time_from_start point) rest
                     (goto_position (waypoint_target names point)
                        (time_margin + (time_from_start point - time))%Q ms).2))
          ([IsShutdown false;
            GotoPosition (waypoint_target names point)
              (time_margin + (time_from_start point - time))%Q;
            Sleep (time_from_start point - time - 0.001)%Q false]
             ++ trace (loop (S i) (time_from_start point) rest
                         (goto_position (waypoint_target names point)
                            (time_margin + (time_from_start point - time))%Q ms).2)))) ->
  forall points i time ms, P i time ms points (loop i time points ms).
Proof.
  intros Hnil Hstop Hskip Hkey Hraise Hint Hgo.
  induction points as [|point rest IH]; intros i time ms; [apply Hnil|].
  unfold execute_from in *. cbn [for_enumerate].
  destruct (shutdown_at rt i) eqn:Hshut.
  { pose proof (execute_point_shutdown goto_position self rt names total
                  i point time ms Hshut) as Hstep.
    rewrite (bind_Return _ _ _ (Break time)) by by rewrite Hstep.
    rewrite Hstep. by apply Hstop. }
  destruct (Qlt_le_dec (time_from_start point) time) as [Hlate|Hle].
  { pose proof (execute_point_skip goto_position self rt names total
                  i point time ms Hshut Hlate) as Hstep.
    rewrite (bind_Raise _ _ _ TypeError) by by rewrite Hstep.
    rewrite Hstep. by apply Hskip. }
  destruct (params self !! "time_margin") as [time_margin|] eqn:Hmargin.
  2:{ pose proof (execute_point_KeyError goto_position self rt names total
                    i point time ms Hshut Hle Hmargin) as Hstep.
      rewrite (bind_Raise _ _ _ (KeyError "time_margin")) by by rewrite Hstep.
      rewrite Hstep. by apply Hkey. }
  destruct (goto_position (waypoint_target names point)
              (time_margin + (time_from_start point - time))%Q ms).1
    as [[]|err] eqn:Hgoto.
  2:{ pose proof (execute_point_goto_raises goto_position self rt names total
                    i point time ms time_margin err Hshut Hle Hmargin Hgoto) as Hstep.
      rewrite (bind_Raise _ _ _ err) by by rewrite Hstep.
      rewrite Hstep. by apply Hraise. }
  pose proof (execute_point_goto goto_position self rt names total
                i point time ms time_margin Hshut Hle Hmargin Hgoto) as Hstep.
  destruct (interrupted_at rt i) eqn:Hi.
  - rewrite (bind_Raise _ _ _ ROSInterruptException) by by rewrite Hstep.
    rewrite Hstep. by apply Hint.
  - rewrite (bind_Return _ _ _ (Next (time_from_start point))) by by rewrite Hstep.
    rewrite Hstep. cbn [value motors trace]. by apply Hgo.
Qed.

End ExecutorCases.

(** ** The trajectory executor: what it never does, and its bounds *)

Lemma waits_closing_log {A} (v : result A) : waits (closing_log v) = [].
Proof. by destruct v as [a|[]]. Qed.

Lemma gotos_closing_log {A} (v : result A) : gotos (closing_log v) = [].
Proof. by destruct v as [a|[]]. Qed.

Lemma skip_warnings_app (tr1 tr2 : list event) :
  skip_warnings (tr1 ++ tr2) = skip_warnings tr1 ++ skip_warnings tr2.
Proof. apply List.filter_app. Qed.

Lemma skip_warnings_closing_log {A} (v : result A) : skip_warnings (closing_log v) = [].
Proof. by destruct v as [a|[]]. Qed.

(** The trace of [execute] around the trace of its loop. *)
Lemma execute_trace_shape
    (goto_position : gmap string Q -> Q -> list Motor.t -> result unit * list Motor.t)
    (self : ErgoJrControllers) (rt : runtime) (trajectory : JointTrajectory.t)
    (ms : list Motor.t) :
  trace (execute goto_position self rt trajectory ms)
  = [Acquire; Log INFO (ExecutingTrajectory (length (JointTrajectory.points trajectory)))]
      ++ trace (execute_loop goto_position self rt trajectory ms)
      ++ closing_log (value (execute_loop goto_position self rt trajectory ms))
      ++ [Release].
Proof. by rewrite execute_outcome. Qed.

Lemma execute_from_without_time_margin
    (goto_position : gmap string Q -> Q -> list Motor.t -> result unit * list Motor.t)
    (self : ErgoJrControllers) (rt : runtime) (trajectory : JointTrajectory.t)
    (points : list JointTrajectoryPoint.t) (i : nat) (time : Q) (ms : list Motor.t) :
  params self !! "time_margin" = None ->
  gotos (trace (execute_from goto_position self rt trajectory i time points ms)) = [] /\
  waits (trace (execute_from goto_position self rt trajectory i time points ms)) = [] /\
  motors (execute_from goto_position self rt trajectory i time points ms) = ms /\
  (forall e, value (execute_from goto_position self rt trajectory i time points ms)
             = Raise e -> e = KeyError "time_margin" \/ e = TypeError).
Proof.
  intros Hnone. revert points i time ms.
  apply (execute_from_run_ind goto_position self rt trajectory
           (fun i time ms points o =>
              gotos (trace o) = [] /\ waits (trace o) = [] /\ motors o = ms /\
              (forall e, value o = Raise e -> e = KeyError "time_margin" \/ e = TypeError))).
  - done.
  - done.
  - intros i time ms point rest _ _. repeat split; try done. intros e [= <-]. by right.
  - intros i time ms point rest _ _ _. repeat split; try done. intros e [= <-]. by left.
  - intros i time ms point rest time_margin e _ _ Hsome. congruence.
  - intros i time ms point rest time_margin _ _ Hsome. congruence.
  - intros i time ms point rest time_margin _ _ Hsome. congruence.
Qed.

(** X1: without the key [time_margin] in the configuration, [execute] never
    calls [goto_position] and never sleeps, whatever the trajectory and the
    runtime: the motors are left as they were, and if the call does not
    return normally the exception is the [KeyError] of that key or, at a
    waypoint with a negative duration, the [TypeError] of its warning. *)
Theorem execute_without_time_margin
    (goto_position : gmap string Q -> Q -> list Motor.t -> result unit * list Motor.t)
    (self : ErgoJrControllers) (rt : runtime) (trajectory : JointTrajectory.t)
    (ms : list Motor.t) :
  params self !! "time_margin" = None ->
  gotos (trace (execute goto_position self rt trajectory ms)) = [] /\
  waits (trace (execute goto_position self rt trajectory ms)) = [] /\
  motors (execute goto_position self rt trajectory ms) = ms /\
  (value (execute goto_position self rt trajectory ms) = Return tt \/
   value (execute goto_position self rt trajectory ms) = Raise (KeyError "time_margin") \/
   value (execute goto_position self rt trajectory ms) = Raise TypeError).
Proof.
  intros Hnone.
  destruct (execute_from_without_time_margin goto_position self rt trajectory
              (JointTrajectory.points trajectory) 0 0 ms Hnone) as (Hg & Hw & Hm & Hv).
  change (execute_from goto_position self rt trajectory 0 0
            (JointTrajectory.points trajectory) ms)
    with (execute_loop goto_position self rt trajectory ms) in Hg, Hw, Hm, Hv.
  rewrite execute_trace_shape, !gotos_app, !waits_app, Hg, Hw,
    gotos_closing_log, waits_closing_log.
  rewrite execute_outcome. cbn [value motors].
  repeat split; try done.
  destruct (value (execute_loop goto_position self rt trajectory ms)) as [c|e] eqn:Hval;
    [by left|]. right. destruct (Hv e eq_refl) as [->| ->]; [by left|by right].
Qed.

Lemma execute_without_time_margin_witness :
  motors (execute dummy_goto_position
            (mkErgoJrControllers {[ "publish_rate" := 10%Q ]} "poppy") quiet zigzag ergo_jr)
  = ergo_jr.
Proof.
  apply (execute_without_time_margin dummy_goto_position
           (mkErgoJrControllers {[ "publish_rate" := 10%Q ]} "poppy") quiet zigzag ergo_jr).
  reflexivity.
Defined.

Lemma execute_from_within_bounds
    (goto_position : gmap string Q -> Q -> list Motor.t -> result unit * list Motor.t)
    (self : ErgoJrControllers) (rt : runtime) (trajectory : JointTrajectory.t)
    (time_margin : Q)
    (points : list JointTrajectoryPoint.t) (i : nat) (time : Q) (ms : list Motor.t) :
  params self !! "time_margin" = Some time_margin ->
  Forall (within_bounds time_margin)
    (trace (execute_from goto_position self rt trajectory i time points ms)).
Proof.
  intros Hmargin. revert points i time ms.
  apply (execute_from_run_ind goto_position self rt trajectory
           (fun i time ms points o => Forall (within_bounds time_margin) (trace o))).
  - by constructor.
  - intros. by repeat constructor.
  - intros. by repeat constructor.
  - intros. by repeat constructor.
  - intros i time ms point rest tm e _ Hle Htm _.
    assert (tm = time_margin) as -> by congruence.
    cbn [trace]. repeat constructor; cbn; lra.
  - intros i time ms point rest tm _ Hle Htm _ _.
    assert (tm = time_margin) as -> by congruence.
    cbn [trace]. repeat constructor; cbn; lra.
  - intros i time ms point rest tm _ Hle Htm _ _ IH.
    assert (tm = time_margin) as -> by congruence.
    cbn [trace]. apply Forall_app. split; [|done].
    repeat constructor; cbn; lra.
Qed.

(** X2: with the time margin configured, every [goto_position] that
    [execute] issues lasts at least the margin (the computed duration is
    never negative), and every duration it hands to [rospy.sleep] is at
    least -0.001. *)
Theorem execute_durations_within_bounds
    (goto_position : gmap string Q -> Q -> list Motor.t -> result unit * list Motor.t)
    (self : ErgoJrControllers) (rt : runtime) (trajectory : JointTrajectory.t)
    (ms : list Motor.t) (time_margin : Q) :
  params self !! "time_margin" = Some time_margin ->
  (forall target duration,
     GotoPosition target duration ∈ trace (execute goto_position self rt trajectory ms) ->
     (time_margin <= duration)%Q) /\
  (forall d interrupted,
     Sleep d interrupted ∈ trace (execute goto_position self rt trajectory ms) ->
     (- (0.001) <= d)%Q).
Proof.
  intros Hmargin.
  assert (Hall : Forall (within_bounds time_margin)
                   (trace (execute goto_position self rt trajectory ms))).
  { rewrite execute_trace_shape. repeat (apply Forall_app; split).
    - by repeat constructor.
    - apply (execute_from_within_bounds goto_position self rt trajectory time_margin
               (JointTrajectory.points trajectory) 0 0 ms Hmargin).
    - destruct (value _) as [c|[]]; by repeat constructor.
    - by repeat constructor. }
  rewrite Forall_forall in Hall. split.
  - intros target duration Hin. exact (Hall _ Hin).
  - intros d interrupted Hin. exact (Hall _ Hin).
Qed.

Lemma execute_durations_within_bounds_witness :
  (0.5 <= 0.5 + (time_from_start (waypoint 1 []) - 0))%Q.
Proof.
  destruct (execute_durations_within_bounds dummy_goto_position poppy quiet zigzag
              ergo_jr 0.5%Q eq_refl) as [Hgoto _].
  apply (Hgoto {[ "m1" := 10%Q; "m2" := 20%Q ]}).
  apply (list_elem_of_lookup_2 _ 3). reflexivity.
Defined.

Lemma execute_from_counts
    (goto_position : gmap string Q -> Q -> list Motor.t -> result unit * list Motor.t)
    (self : ErgoJrControllers) (rt : runtime) (trajectory : JointTrajectory.t)
    (points : list JointTrajectoryPoint.t) (i : nat) (time : Q) (ms : list Motor.t) :
  skip_warnings (trace (execute_from goto_position self rt trajectory i time points ms))
    = [] /\
  (length (gotos (trace (execute_from goto_position self rt trajectory i time points ms)))
   <= length points)%nat /\
  (length (waits (trace (execute_from goto_position self rt trajectory i time points ms)))
   <= length (gotos (trace (execute_from goto_position self rt trajectory i time points ms)))
   <= S (length (waits
                   (trace (execute_from goto_position self rt trajectory i time points ms)))))%nat.
Proof.
  revert points i time ms.
  apply (execute_from_run_ind goto_position self rt trajectory
           (fun i time ms points o =>
              skip_warnings (trace o) = [] /\
              (length (gotos (trace o)) <= length points)%nat /\
              (length (waits (trace o)) <= length (gotos (trace o))
               <= S (length (waits (trace o))))%nat)).
  - intros. cbn. repeat split; lia.
  - intros. cbn. repeat split; lia.
  - intros. cbn. repeat split; lia.
  - intros. cbn. repeat split; lia.
  - intros. cbn. repeat split; lia.
  - intros. cbn. repeat split; lia.
  - intros i time ms point rest tm _ _ _ _ _ (Hs & Hn & Hw). cbn [value motors trace].
    rewrite gotos_app, skip_warnings_app, waits_app, Hs.
    rewrite !length_app. cbn. repeat split; lia.
Qed.

(** X3: whatever the trajectory, the configuration and the runtime,
    [execute] never logs the warning of a skipped waypoint; it calls
    [goto_position] at most once per waypoint, and it sleeps only after a
    call: the sleeps are as many as the calls, or one less when the last
    call raises. *)
Theorem execute_counts_calls_and_sleeps
    (goto_position : gmap string Q -> Q -> list Motor.t -> result unit * list Motor.t)
    (self : ErgoJrControllers) (rt : runtime) (trajectory : JointTrajectory.t)
    (ms : list Motor.t) :
  skip_warnings (trace (execute goto_position self rt trajectory ms)) = [] /\
  (length (gotos (trace (execute goto_position self rt trajectory ms)))
   <= length (JointTrajectory.points trajectory))%nat /\
  (length (waits (trace (execute goto_position self rt trajectory ms)))
   <= length (gotos (trace (execute goto_position self rt trajectory ms)))
   <= S (length (waits (trace (execute goto_position self rt trajectory ms)))))%nat.
Proof.
  destruct (execute_from_counts goto_position self rt trajectory
              (JointTrajectory.points trajectory) 0 0 ms) as (Hs & Hn & Hw).
  change (execute_from goto_position self rt trajectory 0 0
            (JointTrajectory.points trajectory) ms)
    with (execute_loop goto_position self rt trajectory ms) in Hs, Hn, Hw.
  rewrite execute_trace_shape, !gotos_app, !skip_warnings_app, !waits_app,
    gotos_closing_log, skip_warnings_closing_log, waits_closing_log, Hs.
  cbn. rewrite !app_nil_r. done.
Qed.

Lemma only_gotos_app (tr1 tr2 : list event) :
  only_gotos (tr1 ++ tr2) = only_gotos tr1 && only_gotos tr2.
Proof. apply forallb_app. Qed.

Lemma execute_from_only_through_goto
    (goto_position : gmap string Q -> Q -> list Motor.t -> result unit * list Motor.t)
    (self : ErgoJrControllers) (rt : runtime) (trajectory : JointTrajectory.t)
    (Inv : list Motor.t -> Prop)
    (points : list JointTrajectoryPoint.t) (i : nat) (time : Q) (ms : list Motor.t) :
  (forall target duration ms', Inv ms' -> Inv (goto_position target duration ms').2) ->
  (Inv ms ->
   Inv (motors (execute_from goto_position self rt trajectory i time points ms))) /\
  only_gotos (trace (execute_from goto_position self rt trajectory i time points ms)) = true.
Proof.
  intros Hgoto. revert points i time ms.
  apply (execute_from_run_ind goto_position self rt trajectory
           (fun i time ms points o =>
              (Inv ms -> Inv (motors o)) /\ only_gotos (trace o) = true)).
  - done.
  - done.
  - done.
  - done.
  - intros i time ms point rest tm e _ _ _ _. split; [|done]. cbn [motors]. by apply Hgoto.
  - intros i time ms point rest tm _ _ _ _ _. split; [|done]. cbn [motors]. by apply Hgoto.
  - intros i time ms point rest tm _ _ _ _ _ [IH1 IH2]. cbn [motors trace].
    split; [|by rewrite only_gotos_app, IH2].
    intros Hms. by apply IH1, Hgoto.
Qed.

(** X4: [execute] acts on the robot through [goto_position] only: its
    trace has no write to a motor attribute, and whatever property of the
    motors [goto_position] preserves still holds when [execute] is over,
    however the run ends. *)
Theorem execute_only_through_goto
    (goto_position : gmap string Q -> Q -> list Motor.t -> result unit * list Motor.t)
    (self : ErgoJrControllers) (rt : runtime) (trajectory : JointTrajectory.t)
    (Inv : list Motor.t -> Prop) (ms : list Motor.t) :
  (forall target duration ms', Inv ms' -> Inv (goto_position target duration ms').2) ->
  Inv ms ->
  Inv (motors (execute goto_position self rt trajectory ms)) /\
  only_gotos (trace (execute goto_position self rt trajectory ms)) = true.
Proof.
  intros Hgoto Hms.
  destruct (execute_from_only_through_goto goto_position self rt trajectory Inv
              (JointTrajectory.points trajectory) 0 0 ms Hgoto) as [Hinv Honly].
  change (execute_from goto_position self rt trajectory 0 0
            (JointTrajectory.points trajectory) ms)
    with (execute_loop goto_position self rt trajectory ms) in Hinv, Honly.
  rewrite execute_trace_shape, !only_gotos_app, Honly.
  rewrite execute_outcome. cbn [motors]. split; [by apply Hinv|].
  by destruct (value _) as [c|[]].
Qed.

Lemma execute_only_through_goto_witness :
  Motor.name <$> motors (execute dummy_goto_position poppy quiet zigzag ergo_jr)
  = joint_whitelist.
Proof.
  apply (execute_only_through_goto dummy_goto_position poppy quiet zigzag
           (fun ms => Motor.name <$> ms = joint_whitelist) ergo_jr).
  - intros target duration ms' Hms'. unfold dummy_goto_position.
    destruct (forallb _ _); [|done]. cbn [snd].
    rewrite <- Hms', <- list_fmap_compose. apply list_fmap_ext.
    intros i m _. cbn. by destruct (target !! Motor.name m).
  - reflexivity.
Defined.

Lemma expected_gotos_length (time_margin : Q) (joint_names : list string) (prev : Q)
    (points : list JointTrajectoryPoint.t) :
  length (expected_gotos time_margin joint_names prev points) = length points.
Proof.
  revert prev. induction points as [|point rest IH]; intros prev; [done|].
  cbn. by rewrite IH.
Qed.

(** X5: the times of the waypoints need not increase strictly: when each
    [time_from_start] is at least the one before it and the first is not
    negative, with the time margin configured, no shutdown seen and every
    [goto_position] call returning, no waypoint is left out, also not one at
    the same time as the one before it; the [goto_position] calls are those
    of all the waypoints, in order, and [execute] returns normally. *)
Theorem execute_accepts_equal_times
    (goto_position : gmap string Q -> Q -> list Motor.t -> result unit * list Motor.t)
    (self : ErgoJrControllers) (rt : runtime) (trajectory : JointTrajectory.t)
    (ms : list Motor.t) (time_margin : Q) :
  chronological 0 (times (JointTrajectory.points trajectory)) ->
  params self !! "time_margin" = Some time_margin ->
  quiet_for (length (JointTrajectory.points trajectory)) rt ->
  goto_returns goto_position time_margin (JointTrajectory.joint_names trajectory) 0
    (JointTrajectory.points trajectory) ms ->
  gotos (trace (execute goto_position self rt trajectory ms))
    = expected_gotos time_margin (JointTrajectory.joint_names trajectory) 0
        (JointTrajectory.points trajectory) /\
  length (gotos (trace (execute goto_position self rt trajectory ms)))
    = length (JointTrajectory.points trajectory) /\
  value (execute goto_position self rt trajectory ms) = Return tt.
Proof.
  intros Hchron Hmargin Hquiet Hsdk.
  destruct (execute_from_chronological goto_position self rt trajectory time_margin
              (JointTrajectory.points trajectory) 0 0 ms Hmargin Hchron)
    as (Hv & Hg & _); [intros k Hk; apply Hquiet; lia|done|].
  change (execute_from goto_position self rt trajectory 0 0
            (JointTrajectory.points trajectory) ms)
    with (execute_loop goto_position self rt trajectory ms) in Hv, Hg.
  rewrite execute_trace_shape, !gotos_app, Hg, gotos_closing_log.
  rewrite execute_outcome, Hv. cbn [value after_try].
  cbn. rewrite app_nil_r, expected_gotos_length. done.
Qed.

Lemma execute_accepts_equal_times_witness :
  gotos (trace (execute dummy_goto_position poppy quiet
                  (JointTrajectory.mk ["m1"]
                     [waypoint 1 [10%Q]; waypoint 1 [20%Q]]) ergo_jr))
  = [GotoPosition {[ "m1" := 10%Q ]} (0.5 + (time_from_start (waypoint 1 []) - 0))%Q;
     GotoPosition {[ "m1" := 20%Q ]}
       (0.5 + (time_from_start (waypoint 1 []) - time_from_start (waypoint 1 [])))%Q].
Proof.
  apply (execute_accepts_equal_times dummy_goto_position poppy quiet
           (JointTrajectory.mk ["m1"] [waypoint 1 [10%Q]; waypoint 1 [20%Q]])
           ergo_jr 0.5%Q).
  - cbn. repeat split; by vm_compute.
  - reflexivity.
  - intros k Hk. split; reflexivity.
  - repeat split; vm_compute; reflexivity.
Defined.

(** ** The lock around the handlers *)

Lemma lock_free_app (tr1 tr2 : list event) :
  lock_free (tr1 ++ tr2) = lock_free tr1 && lock_free tr2.
Proof. apply forallb_app. Qed.

Lemma teleport_lock_free (target : gmap string Q) (names : list string) (ms : list Motor.t) :
  lock_free (trace (teleport target names ms)) = true.
Proof.
  destruct (teleport_frame target names ms) as (_ & _ & Hevs).
  revert Hevs. generalize (trace (teleport target names ms)).
  intros l. induction l as [|e l IHl]; [done|]. cbn.
  intros [He Hl]%andb_true_iff. unfold lock_free in IHl. rewrite (IHl Hl). by destruct e.
Qed.

(** X6: each of the three handlers takes [robot_lock] once and releases it
    as its last act on every exit, also when [_cb_reach] or [execute]
    raises: the trace is the log line (for [_cb_reach] and
    [_cb_set_compliant]), [Acquire], events that are not on the lock, then
    [Release]. *)
Theorem handlers_release_lock
    (goto_position : gmap string Q -> Q -> list Motor.t -> result unit * list Motor.t)
    (self : ErgoJrControllers) (rt : runtime) (ms : list Motor.t) :
  (forall request, exists line body,
     trace (_cb_reach goto_position self request ms)
       = Log INFO line :: Acquire :: body ++ [Release] /\ lock_free body = true) /\
  (forall trajectory, exists body,
     trace (execute goto_position self rt trajectory ms)
       = Acquire :: body ++ [Release] /\ lock_free body = true) /\
  (forall request, exists line body,
     trace (_cb_set_compliant self request ms)
       = Log INFO line :: Acquire :: body ++ [Release] /\ lock_free body = true).
Proof.
  split; [|split].
  - intros request.
    destruct (Qlt_le_dec 0 (reach_duration request)) as [Hpos|Hneg].
    + apply leb0_false in Hpos. unfold reach_duration in Hpos.
      unfold _cb_reach. rewrite Hpos.
      unfold bind, with_lock, ergo_goto_position, reset_max_speed, for_each_motor, ret,
        loginfo, emit.
      cbn [value motors trace].
      destruct (goto_position _ _ ms).1 as [[]|err]; cbn [value motors trace app].
      * eexists _, (GotoPosition _ _ :: imap _ _). split.
        -- rewrite app_nil_r. reflexivity.
        -- cbn. by apply lock_free_imap.
      * by eexists _, [GotoPosition _ _].
    + destruct (cb_reach_teleport goto_position self request ms Hneg) as (_ & _ & ->).
      eexists _, _. split; [reflexivity|]. apply teleport_lock_free.
  - intros trajectory. rewrite execute_outcome. cbn [trace].
    eexists (Log INFO _ :: _ ++ closing_log _). split.
    + cbn. by rewrite <- app_assoc.
    + cbn. rewrite lock_free_app. apply andb_true_iff. split.
      * apply waypoint_event_lock_free, execute_from_waypoint_events.
      * by destruct (value _) as [c|[]].
  - intros request. cbn. eexists _, (imap _ _). split.
    + rewrite app_nil_r. reflexivity.
    + by apply lock_free_imap.
Qed.

(** ** [reach]: errors and edge cases of the teleport branch *)

Lemma teleport_app (target : gmap string Q) (names1 names2 : list string)
    (ms : list Motor.t) :
  teleport target (names1 ++ names2) ms
  = match value (teleport target names1 ms) with
    | Return _ =>
        mkOutcome
          (value (teleport target names2 (motors (teleport target names1 ms))))
          (motors (teleport target names2 (motors (teleport target names1 ms))))
          (trace (teleport target names1 ms)
             ++ trace (teleport target names2 (motors (teleport target names1 ms))))
    | Raise e => teleport target names1 ms
    end.
Proof.
  revert ms. induction names1 as [|motor rest IH]; intros ms.
  { cbn. symmetry. apply outcome_eta. }
  cbn [app].
  destruct (index joint_whitelist motor) as [i|e] eqn:Hi.
  - destruct (target !! motor) as [v|] eqn:Hv.
    + destruct (ms !! i) as [m|] eqn:Hm.
      * rewrite !(teleport_cons_set target motor _ i v m ms Hi Hv Hm).
        cbn [value motors trace]. rewrite IH.
        destruct (value (teleport target rest _)) eqn:Hrest; cbn [value motors trace];
          by rewrite ?Hrest.
      * by rewrite !(teleport_cons_IndexError target motor _ i v ms Hi Hv Hm).
    + by rewrite !(teleport_cons_KeyError target motor _ i ms Hi Hv).
  - rewrite !(teleport_cons_skip target motor _ e ms Hi). apply IH.
Qed.

Lemma index_whitelisted (motor : string) :
  motor ∈ joint_whitelist -> exists i, index joint_whitelist motor = Return i.
Proof.
  intros Hin. apply list_elem_of_lookup in Hin as [i Hi].
  exists i. by apply index_of_lookup; [apply joint_whitelist_NoDup|].
Qed.

(** X7: in the teleport branch, the first whitelisted name of the request
    that has no position in the target dictionary makes the handler raise
    the [KeyError] of that name: the names before it have been served and
    stay served, the names after it are not looked at, and no
    acknowledgment is returned. *)
Theorem reach_teleport_KeyError
    (goto_position : gmap string Q -> Q -> list Motor.t -> result unit * list Motor.t)
    (self : ErgoJrControllers) (request : ReachTarget.t) (ms : list Motor.t)
    (before after : list string) (motor : string) :
  (reach_duration request <= 0)%Q ->
  reach_names request = before ++ motor :: after ->
  value (teleport (reach_target request) before ms) = Return tt ->
  motor ∈ joint_whitelist ->
  reach_target request !! motor = None ->
  value (_cb_reach goto_position self request ms) = Raise (KeyError motor) /\
  motors (_cb_reach goto_position self request ms)
    = motors (teleport (reach_target request) before ms).
Proof.
  intros Hd Hnames Hbefore Hw Hnone.
  destruct (cb_reach_teleport goto_position self request ms Hd) as (-> & -> & _).
  destruct (index_whitelisted motor Hw) as [i Hi].
  rewrite Hnames, teleport_app, Hbefore. cbn [value motors].
  by rewrite (teleport_cons_KeyError _ motor after i _ Hi Hnone).
Qed.

Lemma reach_teleport_KeyError_witness :
  Motor.goal_position
    <$> motors (_cb_reach dummy_goto_position poppy
                  (ReachTarget.mk (JointState.mk ["m2"; "m1"; "m3"] [5%Q] [] [])
                                  (Duration.mk 0 0)) ergo_jr)
  = [0%Q; 5%Q; 0%Q; 0%Q; 0%Q; 0%Q] /\
  value (_cb_reach dummy_goto_position poppy
           (ReachTarget.mk (JointState.mk ["m2"; "m1"; "m3"] [5%Q] [] [])
                           (Duration.mk 0 0)) ergo_jr)
  = Raise (KeyError "m1").
Proof.
  split; [reflexivity|].
  apply (reach_teleport_KeyError dummy_goto_position poppy
           (ReachTarget.mk (JointState.mk ["m2"; "m1"; "m3"] [5%Q] [] [])
                           (Duration.mk 0 0)) ergo_jr ["m2"] ["m3"] "m1").
  - by vm_compute.
  - reflexivity.
  - reflexivity.
  - compute_done.
  - reflexivity.
Defined.

(** X8: in the teleport branch, a whitelisted name with a position whose
    index in the whitelist is beyond the robot's motors makes the handler
    raise [IndexError]; the names before it stay served. *)
Theorem reach_teleport_IndexError
    (goto_position : gmap string Q -> Q -> list Motor.t -> result unit * list Motor.t)
    (self : ErgoJrControllers) (request : ReachTarget.t) (ms : list Motor.t)
    (before after : list string) (motor : string) (i : nat) :
  (reach_duration request <= 0)%Q ->
  reach_names request = before ++ motor :: after ->
  value (teleport (reach_target request) before ms) = Return tt ->
  joint_whitelist !! i = Some motor ->
  is_Some (reach_target request !! motor) ->
  (length ms <= i)%nat ->
  value (_cb_reach goto_position self request ms) = Raise IndexError /\
  motors (_cb_reach goto_position self request ms)
    = motors (teleport (reach_target request) before ms).
Proof.
  intros Hd Hnames Hbefore Hw [v Hv] Hlen.
  destruct (cb_reach_teleport goto_position self request ms Hd) as (-> & -> & _).
  apply (index_of_lookup _ _ _ joint_whitelist_NoDup) in Hw.
  rewrite Hnames, teleport_app, Hbefore. cbn [value motors].
  rewrite (teleport_cons_IndexError _ motor after i v _ Hw Hv); [done|].
  apply lookup_ge_None.
  destruct (teleport_frame (reach_target request) before ms) as (-> & _). done.
Qed.

Lemma reach_teleport_IndexError_witness :
  value (_cb_reach dummy_goto_position poppy
           (ReachTarget.mk (JointState.mk ["m1"; "m6"] [5%Q; 6%Q] [] [])
                           (Duration.mk 0 0)) (take 3 ergo_jr))
  = Raise IndexError.
Proof.
  apply (reach_teleport_IndexError dummy_goto_position poppy
           (ReachTarget.mk (JointState.mk ["m1"; "m6"] [5%Q; 6%Q] [] [])
                           (Duration.mk 0 0)) (take 3 ergo_jr) ["m1"] [] "m6" 5).
  - by vm_compute.
  - reflexivity.
  - reflexivity.
  - reflexivity.
  - by eexists.
  - cbn. lia.
Defined.

Lemma dict_snoc (pairs : list (string * Q)) (key : string) (v : Q) :
  dict (pairs ++ [(key, v)]) = <[key := v]> (dict pairs).
Proof. unfold dict. by rewrite foldl_snoc. Qed.

Lemma dict_has_key (pairs : list (string * Q)) (key : string) :
  key ∈ pairs.*1 -> is_Some (dict pairs !! key).
Proof.
  induction pairs as [|[k v] pairs IH] using rev_ind.
  - cbn. intros Hin. by apply elem_of_nil in Hin.
  - rewrite dict_snoc, fmap_app. cbn. rewrite elem_of_app.
    destruct (decide (k = key)) as [->|Hne].
    + intros _. rewrite lookup_insert_eq. by eexists.
    + rewrite lookup_insert_ne by done. intros [Hin|Hin]; [by apply IH|].
      apply list_elem_of_singleton in Hin. congruence.
Qed.

(** The last pair of a key decides its value. *)
Lemma dict_last_wins (pairs1 pairs2 : list (string * Q)) (key : string) (v : Q) :
  key ∉ pairs2.*1 ->
  dict (pairs1 ++ (key, v) :: pairs2) !! key = Some v.
Proof.
  induction pairs2 as [|[k w] pairs2 IH] using rev_ind; intros Hnot.
  - by rewrite dict_snoc, lookup_insert_eq.
  - rewrite fmap_app, not_elem_of_app in Hnot. destruct Hnot as [Hnot Hk].
    cbn in Hk. rewrite list_elem_of_singleton in Hk.
    change (pairs1 ++ (key, v) :: pairs2 ++ [(k, w)])
      with (pairs1 ++ ((key, v) :: pairs2) ++ [(k, w)]).
    rewrite app_assoc, dict_snoc, lookup_insert_ne by congruence. by apply IH.
Qed.

Lemma teleport_keeps_names (target : gmap string Q) (names : list string)
    (ms : list Motor.t) :
  Motor.name <$> motors (teleport target names ms) = Motor.name <$> ms.
Proof.
  destruct (teleport_frame target names ms) as (Hlen & Hframe & _).
  apply list_eq. intros i. rewrite !list_lookup_fmap.
  destruct (ms !! i) as [m|] eqn:Hi.
  - destruct (Hframe i m Hi) as [v ->]. done.
  - apply lookup_ge_None in Hi. rewrite <- Hlen in Hi.
    apply lookup_ge_None in Hi. by rewrite Hi.
Qed.

Lemma ergo_jr_name (ms : list Motor.t) (i : nat) (m : Motor.t) (motor : string) :
  is_ergo_jr ms -> ms !! i = Some m -> joint_whitelist !! i = Some motor ->
  Motor.name m = motor.
Proof.
  unfold is_ergo_jr. intros Hergo Hm Hw.
  assert (Hn : (Motor.name <$> ms) !! i = Some motor) by by rewrite Hergo.
  rewrite list_lookup_fmap, Hm in Hn. by injection Hn.
Qed.

Lemma ergo_jr_length (ms : list Motor.t) :
  is_ergo_jr ms -> (length joint_whitelist <= length ms)%nat.
Proof. unfold is_ergo_jr. intros <-. by rewrite length_fmap. Qed.

(** X9: on an Ergo Jr, a [reach] request with a duration that is not
    positive and at least as many positions as names is always
    acknowledged, whatever the names are. *)
Theorem reach_teleport_well_formed_request
    (goto_position : gmap string Q -> Q -> list Motor.t -> result unit * list Motor.t)
    (self : ErgoJrControllers) (request : ReachTarget.t) (ms : list Motor.t) :
  (reach_duration request <= 0)%Q ->
  is_ergo_jr ms ->
  (length (JointState.name (ReachTarget.target request))
   <= length (JointState.position (ReachTarget.target request)))%nat ->
  value (_cb_reach goto_position self request ms) = Return mkReachTargetResponse.
Proof.
  intros Hd Hergo Hlen.
  destruct (cb_reach_teleport goto_position self request ms Hd) as (-> & _ & _).
  destruct (teleport_sets_goals (reach_target request) (reach_names request) ms)
    as [-> _]; [by apply ergo_jr_length| |done].
  intros motor Hin _. unfold reach_target. apply dict_has_key.
  unfold reach_names in Hin. by rewrite fst_zip.
Qed.

Lemma reach_teleport_well_formed_request_witness :
  value (_cb_reach dummy_goto_position poppy
           (ReachTarget.mk (JointState.mk ["m6"; "elbow"] [5%Q; 6%Q; 7%Q] [] [])
                           (Duration.mk 0 0)) ergo_jr)
  = Return mkReachTargetResponse.
Proof.
  apply (reach_teleport_well_formed_request dummy_goto_position poppy
           (ReachTarget.mk (JointState.mk ["m6"; "elbow"] [5%Q; 6%Q; 7%Q] [] [])
                           (Duration.mk 0 0)) ergo_jr).
  - by vm_compute.
  - reflexivity.
  - cbn. lia.
Defined.

(** X10: when a request of the teleport branch names a whitelisted joint
    several times, the position given with its last occurrence is the goal
    position the motor of that name ends with. *)
Theorem reach_teleport_last_position_wins
    (goto_position : gmap string Q -> Q -> list Motor.t -> result unit * list Motor.t)
    (self : ErgoJrControllers) (request : ReachTarget.t) (ms : list Motor.t)
    (names1 names2 : list string) (positions1 positions2 : list Q)
    (motor : string) (v : Q) :
  (reach_duration request <= 0)%Q ->
  is_ergo_jr ms ->
  JointState.name (ReachTarget.target request) = names1 ++ motor :: names2 ->
  JointState.position (ReachTarget.target request) = positions1 ++ v :: positions2 ->
  length names1 = length positions1 ->
  (length names2 <= length positions2)%nat ->
  motor ∉ names2 ->
  motor ∈ joint_whitelist ->
  exists i m,
    motors (_cb_reach goto_position self request ms) !! i = Some m /\
    Motor.name m = motor /\
    Motor.goal_position m = v.
Proof.
  intros Hd Hergo Hnames Hpositions Hlen1 Hlen2 Hnot Hw.
  destruct (cb_reach_teleport goto_position self request ms Hd) as (_ & -> & _).
  assert (Htarget : reach_target request !! motor = Some v).
  { unfold reach_target. rewrite Hnames, Hpositions, zip_with_app by done.
    change (zip_with pair (motor :: names2) (v :: positions2))
      with ((motor, v) :: zip names2 positions2).
    apply dict_last_wins. by rewrite fst_zip. }
  destruct (teleport_sets_goals (reach_target request) (reach_names request) ms)
    as [_ Hgoal]; [by apply ergo_jr_length| |].
  { intros n Hin _. apply dict_has_key. unfold reach_names in Hin.
    unfold reach_target. rewrite fst_zip; [done|].
    rewrite Hnames, Hpositions, !length_app. cbn. lia. }
  apply list_elem_of_lookup in Hw as [i Hi].
  destruct (Hgoal motor i) as (m & Hm & Hg); [|done|].
  { unfold reach_names. rewrite Hnames. apply elem_of_app. right. by left. }
  exists i, m. split; [done|]. split.
  - eapply (ergo_jr_name (motors (teleport (reach_target request)
                                    (reach_names request) ms))); [|done..].
    unfold is_ergo_jr. by rewrite teleport_keeps_names.
  - congruence.
Qed.

Lemma reach_teleport_last_position_wins_witness :
  exists i m,
    motors (_cb_reach dummy_goto_position poppy
              (ReachTarget.mk (JointState.mk ["m2"; "m1"; "m2"] [1%Q; 2%Q; 3%Q] [] [])
                              (Duration.mk 0 0)) ergo_jr) !! i = Some m /\
    Motor.name m = "m2" /\ Motor.goal_position m = 3%Q.
Proof.
  apply (reach_teleport_last_position_wins dummy_goto_position poppy
           (ReachTarget.mk (JointState.mk ["m2"; "m1"; "m2"] [1%Q; 2%Q; 3%Q] [] [])
                           (Duration.mk 0 0)) ergo_jr
           ["m2"; "m1"] [] [1%Q; 2%Q] []).
  - by vm_compute.
  - reflexivity.
  - reflexivity.
  - reflexivity.
  - reflexivity.
  - cbn. lia.
  - compute_done.
  - compute_done.
Defined.

Lemma teleport_unknown_names (target : gmap string Q) (names : list string)
    (ms : list Motor.t) :
  Forall (fun motor => motor ∉ joint_whitelist) names ->
  teleport target names ms = mkOutcome (Return tt) ms [].
Proof.
  induction 1 as [|motor rest Hmotor _ IH]; [done|].
  destruct (index joint_whitelist motor) as [i|e] eqn:Hi.
  - apply index_lookup in Hi. destruct Hmotor. by eapply list_elem_of_lookup_2.
  - by rewrite (teleport_cons_skip target motor rest e ms Hi).
Qed.

(** X11: a request of the teleport branch that names no whitelisted joint
    is acknowledged and does nothing but log, take the lock and release it:
    the motors are as they were, whatever the positions given and whatever
    the robot (also one without motors). *)
Theorem reach_teleport_unknown_names_only
    (goto_position : gmap string Q -> Q -> list Motor.t -> result unit * list Motor.t)
    (self : ErgoJrControllers) (request : ReachTarget.t) (ms : list Motor.t) :
  (reach_duration request <= 0)%Q ->
  Forall (fun motor => motor ∉ joint_whitelist) (reach_names request) ->
  _cb_reach goto_position self request ms
  = mkOutcome (Return mkReachTargetResponse) ms
      [Log INFO (Teleporting (reach_target request)); Acquire; Release].
Proof.
  intros Hd Hunknown.
  destruct (cb_reach_teleport goto_position self request ms Hd) as (Hv & Hm & Ht).
  rewrite (teleport_unknown_names _ _ ms Hunknown) in Hv, Hm, Ht.
  rewrite <- (outcome_eta (_cb_reach goto_position self request ms)).
  by rewrite Hv, Hm, Ht.
Qed.

Lemma reach_teleport_unknown_names_only_witness :
  motors (_cb_reach dummy_goto_position poppy
            (ReachTarget.mk (JointState.mk ["base"; "M1"] [] [] []) (Duration.mk 0 0)) [])
  = [].
Proof.
  rewrite (reach_teleport_unknown_names_only dummy_goto_position poppy
             (ReachTarget.mk (JointState.mk ["base"; "M1"] [] [] []) (Duration.mk 0 0)) []).
  - reflexivity.
  - by vm_compute.
  - compute_done.
Defined.

Lemma set_goal_position_same (m : Motor.t) :
  Motor.set_goal_position (Motor.goal_position m) m = m.
Proof. by destruct m. Qed.

Lemma teleport_twice (target : gmap string Q) (names : list string) (ms : list Motor.t) :
  (length joint_whitelist <= length ms)%nat ->
  (forall motor, motor ∈ names -> motor ∈ joint_whitelist -> is_Some (target !! motor)) ->
  motors (teleport target names (motors (teleport target names ms)))
  = motors (teleport target names ms).
Proof.
  intros Hlen Hpos.
  set (ms1 := motors (teleport target names ms)).
  destruct (teleport_frame target names ms) as (Hlen1 & _ & _). fold ms1 in Hlen1.
  destruct (teleport_frame target names ms1) as (Hlen2 & Hframe2 & _).
  apply list_eq. intros i.
  destruct (ms1 !! i) as [m1|] eqn:Hm1.
  2:{ apply lookup_ge_None in Hm1. apply lookup_ge_None. lia. }
  destruct (joint_whitelist !! i) as [motor|] eqn:Hw.
  2:{ rewrite teleport_untouched; [done|]. intros motor Hw'. congruence. }
  destruct (decide (motor ∈ names)) as [Hin|Hnotin].
  2:{ rewrite teleport_untouched; [done|]. intros motor' Hw' Hin'. congruence. }
  destruct (teleport_sets_goals target names ms Hlen Hpos) as [_ Hgoal1].
  destruct (Hgoal1 motor i Hin Hw) as (m & Hm & Hg1). fold ms1 in Hm.
  assert (m = m1) as -> by congruence.
  destruct (teleport_sets_goals target names ms1) as [_ Hgoal2]; [lia|done|].
  destruct (Hgoal2 motor i Hin Hw) as (m2 & Hm2 & Hg2).
  destruct (Hframe2 i m1 Hm1) as [v2 Hv2].
  rewrite Hm2 in Hv2 |- *. injection Hv2 as ->.
  cbn in Hg2. rewrite Hg1 in Hg2. injection Hg2 as <-.
  by rewrite set_goal_position_same.
Qed.

(** X12: teleporting is idempotent: on an Ergo Jr, serving twice in a row
    the same request of the teleport branch, one with a position for every
    whitelisted name, leaves the motors as serving it once does. *)
Theorem reach_teleport_idempotent
    (goto_position : gmap string Q -> Q -> list Motor.t -> result unit * list Motor.t)
    (self : ErgoJrControllers) (request : ReachTarget.t) (ms : list Motor.t) :
  (reach_duration request <= 0)%Q ->
  is_ergo_jr ms ->
  Forall (fun motor => motor ∈ joint_whitelist -> is_Some (reach_target request !! motor))
         (reach_names request) ->
  motors (_cb_reach goto_position self request
            (motors (_cb_reach goto_position self request ms)))
  = motors (_cb_reach goto_position self request ms).
Proof.
  intros Hd Hergo Hpos. rewrite Forall_forall in Hpos.
  destruct (cb_reach_teleport goto_position self request ms Hd) as (_ & -> & _).
  destruct (cb_reach_teleport goto_position self request
              (motors (teleport (reach_target request) (reach_names request) ms)) Hd)
    as (_ & -> & _).
  apply teleport_twice; [by apply ergo_jr_length|by auto].
Qed.

Lemma reach_teleport_idempotent_witness :
  motors (_cb_reach dummy_goto_position poppy
            (ReachTarget.mk (JointState.mk ["m1"; "tip"; "m1"] [1%Q; 2%Q; 3%Q] [] [])
                            (Duration.mk 0 0))
            (motors (_cb_reach dummy_goto_position poppy
                       (ReachTarget.mk
                          (JointState.mk ["m1"; "tip"; "m1"] [1%Q; 2%Q; 3%Q] [] [])
                          (Duration.mk 0 0)) ergo_jr)))
  = motors (_cb_reach dummy_goto_position poppy
              (ReachTarget.mk (JointState.mk ["m1"; "tip"; "m1"] [1%Q; 2%Q; 3%Q] [] [])
                              (Duration.mk 0 0)) ergo_jr).
Proof.
  apply (reach_teleport_idempotent dummy_goto_position poppy
           (ReachTarget.mk (JointState.mk ["m1"; "tip"; "m1"] [1%Q; 2%Q; 3%Q] [] [])
                           (Duration.mk 0 0)) ergo_jr).
  - by vm_compute.
  - reflexivity.
  - compute_done.
Defined.

(** ** The publishing loop *)

Lemma publish_loop_turn (end_effector : list Motor.t -> Q * Q * Q) (rt : runtime)
    (fuel i : nat) (ms : list Motor.t) :
  shutdown_at rt i = false ->
  interrupted_at rt i = false ->
  publish_loop end_effector rt (S fuel) i ms
  = mkOutcome
      (value (publish_loop end_effector rt fuel (S i) ms))
      (motors (publish_loop end_effector rt fuel (S i) ms))
      ([IsShutdown false;
        Publish "joint_goals" (JointStateMsg (joint_goals_of ms));
        Publish "end_effector_pose"
          (PoseStamped "ergo_jr_base" (end_effector ms).1.1 (end_effector ms).1.2
             (end_effector ms).2);
        Publish "joint_state" (JointStateMsg (joint_state_of ms));
        RateSleep]
         ++ trace (publish_loop end_effector rt fuel (S i) ms)).
Proof.
  intros Hshut Hint. cbn [publish_loop].
  unfold bind at 1. unfold is_shutdown. cbn [value motors trace]. rewrite Hshut.
  assert (Hturn : publish_turn end_effector rt i ms
                  = mkOutcome (Return tt) ms
                      [Publish "joint_goals" (JointStateMsg (joint_goals_of ms));
                       Publish "end_effector_pose"
                         (PoseStamped "ergo_jr_base" (end_effector ms).1.1
                            (end_effector ms).1.2 (end_effector ms).2);
                       Publish "joint_state" (JointStateMsg (joint_state_of ms));
                       RateSleep]).
  { unfold publish_turn, bind, rate_sleep. cbn. by rewrite Hint. }
  rewrite (bind_Return _ _ _ tt) by by rewrite Hturn.
  rewrite Hturn. done.
Qed.

Lemma publish_loop_stops_from (end_effector : list Motor.t -> Q * Q * Q) (rt : runtime)
    (n fuel i : nat) (ms : list Motor.t) :
  (forall k, (i <= k < i + n)%nat ->
     shutdown_at rt k = false /\ interrupted_at rt k = false) ->
  shutdown_at rt (i + n) = true ->
  (n < fuel)%nat ->
  value (publish_loop end_effector rt fuel i ms) = Return true /\
  motors (publish_loop end_effector rt fuel i ms) = ms /\
  length (publications (trace (publish_loop end_effector rt fuel i ms))) = (3 * n)%nat /\
  joint_states_on "joint_state" (trace (publish_loop end_effector rt fuel i ms))
    = replicate n (joint_state_of ms) /\
  joint_states_on "joint_goals" (trace (publish_loop end_effector rt fuel i ms))
    = replicate n (joint_goals_of ms).
Proof.
  revert fuel i. induction n as [|n IH]; intros fuel i Hquiet Hstop Hfuel.
  - destruct fuel as [|fuel]; [lia|]. rewrite Nat.add_0_r in Hstop.
    cbn [publish_loop]. unfold bind, is_shutdown. cbn [value motors trace].
    rewrite Hstop. done.
  - destruct fuel as [|fuel]; [lia|].
    destruct (Hquiet i) as [Hshut Hint]; [lia|].
    rewrite (publish_loop_turn end_effector rt fuel i ms Hshut Hint).
    cbn [value motors trace].
    destruct (IH fuel (S i)) as (Hv & Hm & Hp & Hjs & Hjg).
    { intros k Hk. apply Hquiet. lia. }
    { by replace (S i + n)%nat with (i + S n)%nat by lia. }
    { lia. }
    split; [done|]. split; [done|].
    cbn [app publications List.filter is_publish joint_states_on length].
    fold (publications (trace (publish_loop end_effector rt fuel (S i) ms))).
    rewrite Hp, Hjs, Hjg. split; [lia|]. done.
Qed.

Lemma publish_loop_turn_interrupted (end_effector : list Motor.t -> Q * Q * Q)
    (rt : runtime) (fuel i : nat) (ms : list Motor.t) :
  shutdown_at rt i = false ->
  interrupted_at rt i = true ->
  publish_loop end_effector rt (S fuel) i ms
  = mkOutcome (Raise ROSInterruptException) ms
      [IsShutdown false;
       Publish "joint_goals" (JointStateMsg (joint_goals_of ms));
       Publish "end_effector_pose"
         (PoseStamped "ergo_jr_base" (end_effector ms).1.1 (end_effector ms).1.2
            (end_effector ms).2);
       Publish "joint_state" (JointStateMsg (joint_state_of ms));
       RateSleep].
Proof.
  intros Hshut Hint. cbn [publish_loop].
  unfold bind at 1. unfold is_shutdown. cbn [value motors trace]. rewrite Hshut.
  assert (Hturn : publish_turn end_effector rt i ms
                  = mkOutcome (Raise ROSInterruptException) ms
                      [Publish "joint_goals" (JointStateMsg (joint_goals_of ms));
                       Publish "end_effector_pose"
                         (PoseStamped "ergo_jr_base" (end_effector ms).1.1
                            (end_effector ms).1.2 (end_effector ms).2);
                       Publish "joint_state" (JointStateMsg (joint_state_of ms));
                       RateSleep]).
  { unfold publish_turn, bind, rate_sleep. cbn. by rewrite Hint. }
  rewrite (bind_Raise _ _ _ ROSInterruptException) by by rewrite Hturn.
  rewrite Hturn. done.
Qed.

Lemma publish_loop_interrupted_from (end_effector : list Motor.t -> Q * Q * Q)
    (rt : runtime) (n fuel i : nat) (ms : list Motor.t) :
  (forall k, (i <= k < i + n)%nat ->
     shutdown_at rt k = false /\ interrupted_at rt k = false) ->
  shutdown_at rt (i + n) = false ->
  interrupted_at rt (i + n) = true ->
  (n < fuel)%nat ->
  value (publish_loop end_effector rt fuel i ms) = Raise ROSInterruptException /\
  motors (publish_loop end_effector rt fuel i ms) = ms /\
  joint_states_on "joint_state" (trace (publish_loop end_effector rt fuel i ms))
    = replicate (S n) (joint_state_of ms).
Proof.
  revert fuel i. induction n as [|n IH]; intros fuel i Hquiet Hshut Hint Hfuel.
  - destruct fuel as [|fuel]; [lia|]. rewrite Nat.add_0_r in Hshut, Hint.
    by rewrite (publish_loop_turn_interrupted end_effector rt fuel i ms Hshut Hint).
  - destruct fuel as [|fuel]; [lia|].
    destruct (Hquiet i) as [Hshut0 Hint0]; [lia|].
    rewrite (publish_loop_turn end_effector rt fuel i ms Hshut0 Hint0).
    cbn [value motors trace].
    destruct (IH fuel (S i)) as (Hv & Hm & Hjs).
    { intros k Hk. apply Hquiet. lia. }
    { by replace (S i + n)%nat with (i + S n)%nat by lia. }
    { by replace (S i + n)%nat with (i + S n)%nat by lia. }
    { lia. }
    split; [done|]. split; [done|].
    cbn [app joint_states_on]. by rewrite Hjs.
Qed.

(** X14: the publishing loop of [run] ends normally at the first turn at
    which ROS is seen shut down: with no interruption before, after [n]
    turns it has published 3 n messages, the [joint_state] ones carrying the
    names, present positions, speeds and loads of the motors and the
    [joint_goals] ones their goal positions and speeds, one entry per motor
    in the robot's order, and it has left the motors as they were. *)
Theorem publish_loop_until_shutdown (end_effector : list Motor.t -> Q * Q * Q)
    (rt : runtime) (n fuel : nat) (ms : list Motor.t) :
  quiet_for n rt ->
  shutdown_at rt n = true ->
  (n < fuel)%nat ->
  value (publish_loop end_effector rt fuel 0 ms) = Return true /\
  motors (publish_loop end_effector rt fuel 0 ms) = ms /\
  length (publications (trace (publish_loop end_effector rt fuel 0 ms))) = (3 * n)%nat /\
  joint_states_on "joint_state" (trace (publish_loop end_effector rt fuel 0 ms))
    = replicate n (joint_state_of ms) /\
  joint_states_on "joint_goals" (trace (publish_loop end_effector rt fuel 0 ms))
    = replicate n (joint_goals_of ms).
Proof.
  intros Hquiet Hstop Hfuel.
  apply publish_loop_stops_from; [|done..].
  intros k Hk. apply Hquiet. lia.
Qed.

Lemma publish_loop_until_shutdown_witness :
  joint_states_on "joint_state"
    (trace (publish_loop origin_end_effector (shutdown_from 2) 5 0 ergo_jr))
  = [joint_state_of ergo_jr; joint_state_of ergo_jr].
Proof.
  apply (publish_loop_until_shutdown origin_end_effector (shutdown_from 2) 2 5 ergo_jr).
  - intros k Hk. split; [|reflexivity]. cbn. apply bool_decide_eq_false. lia.
  - reflexivity.
  - lia.
Defined.

(** X15: when ROS is shut down during the rate sleep of a turn of the
    publishing loop, the loop does not end by its test: the sleep raises
    [ROSInterruptException], which nothing in [run] catches; the messages of
    that turn have been published and the motors are as they were. *)
Theorem publish_loop_interrupted (end_effector : list Motor.t -> Q * Q * Q)
    (rt : runtime) (n fuel : nat) (ms : list Motor.t) :
  quiet_for n rt ->
  shutdown_at rt n = false ->
  interrupted_at rt n = true ->
  (n < fuel)%nat ->
  value (publish_loop end_effector rt fuel 0 ms) = Raise ROSInterruptException /\
  motors (publish_loop end_effector rt fuel 0 ms) = ms /\
  joint_states_on "joint_state" (trace (publish_loop end_effector rt fuel 0 ms))
    = replicate (S n) (joint_state_of ms).
Proof.
  intros Hquiet Hshut Hint Hfuel.
  apply publish_loop_interrupted_from; [|done..].
  intros k Hk. apply Hquiet. lia.
Qed.

Lemma publish_loop_interrupted_witness :
  value (publish_loop origin_end_effector (interrupted_during 1) 3 0 ergo_jr)
  = Raise ROSInterruptException.
Proof.
  apply (publish_loop_interrupted origin_end_effector (interrupted_during 1) 1 3 ergo_jr).
  - intros k Hk. split; [reflexivity|]. cbn. apply bool_decide_eq_false. lia.
  - reflexivity.
  - reflexivity.
  - lia.
Defined.

(** ** Startup: the node that serves *)




(** X17: a node that serves has found everything it reads at startup: the
    configuration file with the key [publish_rate], which became its
    parameters, both ROS parameters, and a robot; and every motor it serves
    is rigid with the moving speed 100. *)
Theorem serving_node_is_configured (h : host) (self : ErgoJrControllers)
    (ms : list Motor.t) :
  main h = Serving self ms ->
  config_file h = Some (params self) /\
  is_Some (params self !! "publish_rate") /\
  is_Some (ros_params h !! "description") /\
  (exists path ms0,
     ros_params h !! "description_file" = Some path /\
     PoppyErgoJr h path = Created ms0 /\
     length ms = length (power_up h ms0)) /\
  (forall m, m ∈ ms -> Motor.compliant m = false /\ Motor.moving_speed m = 100%Q).
Proof.
  unfold main, __init__, getitem.
  destruct (config_file h) as [params|]; [|done].
  destruct (params !! "publish_rate") as [rate|] eqn:Hrate; [|done].
  unfold Rate. destruct (Qeq_bool rate 0); [done|].
  unfold run, get_param.
  destruct (ros_params h !! "description") as [description|]; [|done].
  destruct (ros_params h !! "description_file") as [path|]; [|done].
  destruct (PoppyErgoJr h path) as [ms0| |] eqn:Hc; [|done..].
  cbn. intros [= <- <-]. cbn. split; [done|]. split; [by rewrite Hrate|].
  split; [done|]. split.
  - exists path, ms0. by rewrite !length_fmap.
  - intros m Hm. apply list_elem_of_fmap in Hm as (m1 & -> & Hm1).
    apply list_elem_of_fmap in Hm1 as (m0 & -> & _). done.
Qed.

Lemma serving_node_is_configured_witness :
  config_file (lab ergo_jr_params) = Some (params poppy) /\
  is_Some (params poppy !! "publish_rate").
Proof.
  destruct (serving_node_is_configured (lab ergo_jr_params) poppy ergo_jr eq_refl)
    as (Hconfig & Hrate & _).
  by split.
Defined.

(** X18: a node that exits at startup does so with status 1 or 255, and
    255 (the status of [exit(-1)]) only after the configuration file was
    loaded with its key [publish_rate]: it is the status of the two
    failures that [run] logs. *)
Theorem startup_exit_status (h : host) (status : Z) :
  main h = Exited status ->
  status = 1%Z \/
  (status = 255%Z /\
   exists params, config_file h = Some params /\ is_Some (params !! "publish_rate")).
Proof.
  unfold main, __init__, getitem.
  destruct (config_file h) as [params|]; [|intros [= <-]; by left].
  destruct (params !! "publish_rate") as [rate|] eqn:Hrate; [|intros [= <-]; by left].
  assert (Hok : exists params0, Some params = Some params0 /\
                                is_Some (params0 !! "publish_rate")).
  { exists params. by rewrite Hrate. }
  unfold Rate. destruct (Qeq_bool rate 0); [intros [= <-]; by left|].
  unfold run, get_param.
  destruct (ros_params h !! "description") as [description|];
    [|intros [= <-]; by right].
  destruct (ros_params h !! "description_file") as [path|];
    [|intros [= <-]; by right].
  destruct (PoppyErgoJr h path) as [ms0| |]; cbn.
  - done.
  - intros [= <-]. by right.
  - intros [= <-]. by left.
Qed.

Lemma startup_exit_status_witness :
  255%Z = 1%Z \/
  (255%Z = 255%Z /\
   exists params,
     config_file (mkHost (Some ergo_jr_params) ∅ "poppy" (fun _ => Created ergo_jr)
                    (fun ms => ms))
       = Some params /\ is_Some (params !! "publish_rate")).
Proof.
  apply (startup_exit_status
           (mkHost (Some ergo_jr_params) ∅ "poppy" (fun _ => Created ergo_jr)
              (fun ms => ms)) 255).
  reflexivity.
Defined.

(** ** Threads: progress *)

Lemma step_owner_is_thread (t : nat) (s s' : node) :
  owner_is_thread s -> step t s = Some s' -> owner_is_thread s'.
Proof.
  intros Hvalid. unfold step.
  destruct (pending s !! t) as [[|e rest]|] eqn:Ht; try done.
  assert (Hkeep : forall t', is_Some (pending s !! t') ->
                    is_Some (<[t := rest]> (pending s) !! t')).
  { intros t' [tr Ht']. destruct (decide (t = t')) as [->|Hne].
    - rewrite list_lookup_insert_eq by by eapply lookup_lt_Some. by eexists.
    - rewrite list_lookup_insert_ne by done. by eexists. }
  assert (Hself : is_Some (<[t := rest]> (pending s) !! t)).
  { apply Hkeep. by eexists. }
  destruct e;
    try (intros [= <-]; intros t' Ho; cbn in Ho |- *; by apply Hkeep, Hvalid).
  - unfold acquire. destruct (owner (robot_lock s)) as [t0|] eqn:Ho.
    + destruct (decide (t = t0)) as [->|Hne]; [|done].
      intros [= <-] t' [= <-]. done.
    + intros [= <-] t' [= <-]. done.
  - unfold release. destruct (owner (robot_lock s)) as [t0|] eqn:Ho; [|done].
    destruct (decide (t = t0)) as [->|Hne]; [|done].
    destruct (depth (robot_lock s)) as [|[|d]]; [done| |].
    + by intros [= <-] t' [=].
    + intros [= <-] t' [= <-]. done.
Qed.

Lemma interleave_owner_is_thread (schedule : list nat) (s s' : node) :
  owner_is_thread s -> interleave schedule s = Some s' -> owner_is_thread s'.
Proof.
  revert s. induction schedule as [|t schedule IH]; intros s Hs; cbn.
  - by intros [= <-].
  - destruct (step t s) as [s1|] eqn:Hstep; [|done].
    apply IH. by eapply step_owner_is_thread.
Qed.

Lemma reachable_invariants (threads : list (list event)) (schedule : list nat) (s : node) :
  Forall handler_trace threads ->
  interleave schedule (start threads) = Some s ->
  lock_invariant s /\ owner_is_thread s.
Proof.
  intros Hthreads Hrun. split.
  - eapply interleave_invariant; [|done]. by apply start_invariant.
  - eapply interleave_owner_is_thread; [|done]. by intros t [=].
Qed.

Lemma guarded_node_can_step (s : node) :
  lock_invariant s -> owner_is_thread s -> busy s -> exists t, is_Some (step t s).
Proof.
  intros [Hguard Hdepth] Hvalid (t & e & rest & Ht).
  destruct (owner (robot_lock s)) as [t0|] eqn:Ho.
  - destruct (Hvalid t0 Ho) as [tr Ht0]. pose proof (Hguard t0 tr Ht0) as Hg.
    rewrite ?Ho, bool_decide_eq_true_2 in Hg by done.
    exists t0. unfold step. rewrite Ht0.
    destruct tr as [|e0 rest0]; [done|].
    destruct e0; try done; try (by eexists).
    unfold release. rewrite ?Ho.
    destruct (decide (t0 = t0)) as [_|Hne]; [|done]. rewrite Hdepth. by eexists.
  - pose proof (Hguard t _ Ht) as Hg.
    rewrite ?Ho, bool_decide_eq_false_2 in Hg by done.
    exists t. unfold step. rewrite Ht.
    destruct e; try done; try (by eexists).
    unfold acquire. rewrite ?Ho. by eexists.
Qed.

(** X19: the lock never deadlocks the node: however the threads of the
    handlers have been interleaved so far, as long as some thread still has
    something to do, some thread can take its turn. *)
Theorem node_never_deadlocks
    (threads : list (list event)) (schedule : list nat) (s : node) :
  Forall handler_trace threads ->
  interleave schedule (start threads) = Some s ->
  busy s ->
  exists t, is_Some (step t s).
Proof.
  intros Hthreads Hrun Hbusy.
  destruct (reachable_invariants threads schedule s Hthreads Hrun) as [Hlock Hvalid].
  by apply guarded_node_can_step.
Qed.

Lemma node_never_deadlocks_witness :
  exists t,
    is_Some
      (step t
         (mkNode (mkRLock (Some 1%nat) 1)
            [trace (execute dummy_goto_position poppy quiet sweep ergo_jr);
             [Release]])).
Proof.
  apply (node_never_deadlocks
           [trace (execute dummy_goto_position poppy quiet sweep ergo_jr);
            trace (_cb_set_compliant poppy (SetCompliantRequest.mk true) [])]
           [1; 1]%nat).
  - repeat constructor.
  - reflexivity.
  - exists 0%nat. by eexists _, _.
Defined.

(** X20: when all the threads of the handlers have run to their end, the
    lock is free: no handler ends while it holds [robot_lock]. *)
Theorem lock_free_when_idle
    (threads : list (list event)) (schedule : list nat) (s : node) :
  Forall handler_trace threads ->
  interleave schedule (start threads) = Some s ->
  idle s ->
  owner (robot_lock s) = None.
Proof.
  intros Hthreads Hrun Hidle.
  destruct (reachable_invariants threads schedule s Hthreads Hrun)
    as [[Hguard _] Hvalid].
  destruct (owner (robot_lock s)) as [t0|] eqn:Ho; [|done].
  destruct (Hvalid t0 Ho) as [tr Ht0]. pose proof (Hguard t0 tr Ht0) as Hg.
  rewrite ?Ho, bool_decide_eq_true_2 in Hg by done.
  by rewrite (Hidle t0 tr Ht0) in Hg.
Qed.

Lemma lock_free_when_idle_witness :
  owner (robot_lock (mkNode (mkRLock None 0) [[]; []])) = None.
Proof.
  apply (lock_free_when_idle
           [trace (_cb_set_compliant poppy (SetCompliantRequest.mk true) []);
            trace (_cb_set_compliant poppy (SetCompliantRequest.mk false) [])]
           [0; 1; 1; 1; 0; 0]%nat).
  - repeat constructor.
  - reflexivity.
  - intros t tr Ht. destruct t as [|[|t]]; vm_compute in Ht; congruence.
Defined.

Lemma interleave_app (schedule1 schedule2 : list nat) (s : node) :
  interleave (schedule1 ++ schedule2) s
  = match interleave schedule1 s with
    | Some s' => interleave schedule2 s'
    | None => None
    end.
Proof.
  revert s. induction schedule1 as [|t schedule1 IH]; intros s; [done|].
  cbn. destruct (step t s); [apply IH|done].
Qed.

Lemma step_remaining (t : nat) (s s' : node) :
  step t s = Some s' -> remaining s = S (remaining s').
Proof.
  unfold step. destruct (pending s !! t) as [[|e rest]|] eqn:Ht; try done.
  assert (Hcount : sum_list_with length (pending s)
                   = S (sum_list_with length (<[t := rest]> (pending s)))).
  { rewrite <- (take_drop_middle _ _ _ Ht) at 1.
    rewrite (insert_take_drop (pending s) t rest) by by eapply lookup_lt_Some.
    rewrite !sum_list_with_app. cbn. lia. }
  unfold remaining.
  destruct e; try (by intros [= <-]).
  - destruct (acquire t (robot_lock s)); [by intros [= <-]|done].
  - destruct (release t (robot_lock s)); [by intros [= <-]|done].
Qed.

Lemma remaining_zero_idle (s : node) : remaining s = 0%nat -> idle s.
Proof.
  unfold remaining, idle. intros Hsum t tr Ht.
  rewrite <- (take_drop_middle _ _ _ Ht), sum_list_with_app in Hsum.
  cbn in Hsum. apply length_zero_iff_nil. lia.
Qed.

Lemma remaining_pos_busy (s : node) : (0 < remaining s)%nat -> busy s.
Proof.
  unfold remaining, busy. induction (pending s) as [|tr l IH]; cbn; [lia|].
  destruct tr as [|e rest].
  - intros Hpos. destruct IH as (t & e & rest & Ht); [cbn in Hpos; lia|].
    by exists (S t), e, rest.
  - intros _. by exists 0%nat, e, rest.
Qed.

(** X21: the commands can always be brought to their end: from any state
    the node has reached there is a way to schedule the threads of the
    handlers further so that each performs all its events; the node is then
    idle and the lock free. *)
Theorem node_can_run_to_completion
    (threads : list (list event)) (schedule : list nat) (s : node) :
  Forall handler_trace threads ->
  interleave schedule (start threads) = Some s ->
  exists schedule' s',
    interleave (schedule ++ schedule') (start threads) = Some s' /\
    idle s' /\
    owner (robot_lock s') = None.
Proof.
  intros Hthreads. remember (remaining s) as n eqn:Hn.
  revert schedule s Hn. induction n as [|n IH]; intros schedule s Hn Hrun.
  - exists [], s. rewrite app_nil_r. split; [done|].
    assert (Hidle : idle s) by by apply remaining_zero_idle.
    split; [done|].
    destruct (reachable_invariants threads schedule s Hthreads Hrun)
      as [[Hguard _] Hvalid].
    destruct (owner (robot_lock s)) as [t0|] eqn:Ho; [|done].
    destruct (Hvalid t0 Ho) as [tr Ht0]. pose proof (Hguard t0 tr Ht0) as Hg.
    rewrite ?Ho, bool_decide_eq_true_2 in Hg by done.
    by rewrite (Hidle t0 tr Ht0) in Hg.
  - destruct (reachable_invariants threads schedule s Hthreads Hrun) as [Hlock Hvalid].
    destruct (guarded_node_can_step s Hlock Hvalid) as [t [s1 Hstep]];
      [apply remaining_pos_busy; lia|].
    destruct (IH (schedule ++ [t]) s1) as (schedule' & s' & Hrun' & Hidle & Hfree).
    + apply step_remaining in Hstep. lia.
    + rewrite interleave_app, Hrun. cbn. by rewrite Hstep.
    + exists (t :: schedule'), s'. by rewrite <- app_assoc in Hrun'.
Qed.

Lemma node_can_run_to_completion_witness :
  exists schedule' s',
    interleave ([0; 0; 0]%nat ++ schedule')
      (start [trace (execute dummy_goto_position poppy quiet sweep ergo_jr);
              trace (execute dummy_goto_position poppy quiet zigzag ergo_jr)])
    = Some s' /\
    idle s' /\ owner (robot_lock s') = None.
Proof.
  eapply (node_can_run_to_completion
            [trace (execute dummy_goto_position poppy quiet sweep ergo_jr);
             trace (execute dummy_goto_position poppy quiet zigzag ergo_jr)]
            [0; 0; 0]%nat).
  - repeat constructor.
  - reflexivity.
Defined.
